(** * algoritimoST.py: randomized s-t reachability on an adjacency matrix

    Shallow embedding of [reconstruir_caminho], [random_walk] and
    [existe_caminho].  Python integers are [Z], the adjacency matrix is a
    list of rows of [Z], the dictionary [visitados] is a finite map from
    vertices to optional predecessors ([None] is Python's None), and
    [random.choice] reads an explicit source of raw draws. *)

From stdpp Require Import gmap list fin_maps.
From Stdlib Require Import ZArith Lia.

Local Open Scope Z_scope.

(** ** Python values and primitives *)

(** What a call can do: return a value, raise IndexError, or still be
    running when the step budget of the model is used up. *)
Inductive resultado (A : Type) : Type :=
  | Retorno (a : A)
  | ErroIndice
  | SemCombustivel.
Arguments Retorno {A} a.
Arguments ErroIndice {A}.
Arguments SemCombustivel {A}.

(** [l[i]] on a Python list: negative indices count from the end, anything
    outside [-len, len) raises IndexError (here [None]). *)
Definition py_index {A : Type} (l : list A) (i : Z) : option A :=
  let len := Z.of_nat (length l) in
  if 0 <=? i then l !! Z.to_nat i
  else if - len <=? i then l !! Z.to_nat (len + i)
  else None.

(** [[idx for idx, conectado in enumerate(row) if conectado == 1]], with the
    running index of [enumerate] made explicit. *)
Fixpoint vizinhos_desde (idx : Z) (row : list Z) : list Z :=
  match row with
  | [] => []
  | conectado :: resto =>
      if conectado =? 1 then idx :: vizinhos_desde (idx + 1) resto
      else vizinhos_desde (idx + 1) resto
  end.

Definition vizinhos_de (row : list Z) : list Z := vizinhos_desde 0 row.

(** The random source: the [k]-th raw draw.  [random.choice(seq)] returns
    [seq[j]] for some [j < len(seq)] and raises IndexError on an empty
    sequence; every way of choosing is some source. *)
Definition fonte := nat -> nat.

Definition random_choice (rng : fonte) (k : nat) (seq : list Z) : option Z :=
  match seq with
  | [] => None
  | _ => seq !! (rng k mod length seq)%nat
  end.

(** [visitados.get(atual)]: None when the key is absent, the stored value
    (possibly None) otherwise. *)
Definition dict_get (visitados : gmap Z (option Z)) (atual : Z) : option Z :=
  match visitados !! atual with
  | Some v => v
  | None => None
  end.

(** ** reconstruir_caminho *)

(** The while loop of [reconstruir_caminho]; [atual] is [None] when the
    Python variable is None. *)
Fixpoint reconstruir_loop (fuel : nat) (visitados : gmap Z (option Z))
    (atual : option Z) (caminho : list Z) : option (list Z) :=
  match atual with
  | None => Some caminho
  | Some a =>
      match fuel with
      | O => None
      | S fuel' =>
          reconstruir_loop fuel' visitados (dict_get visitados a) (caminho ++ [a])
      end
  end.

Definition reconstruir_caminho (fuel : nat) (visitados : gmap Z (option Z))
    (vertice_final : Z) : option (list Z) :=
  match reconstruir_loop fuel visitados (Some vertice_final) [] with
  | Some caminho => Some (rev caminho)
  | None => None
  end.

(** ** random_walk *)

(** The variables the loop of [random_walk] changes; [sorteios] counts the
    calls to [random.choice] made so far. *)
Record estado : Type := Estado {
  visitados : gmap Z (option Z);
  atual : Z;
  antecessor : option Z;
  i : Z;
  sorteios : nat
}.

Inductive passo_res : Type :=
  | Continua (s : estado)
  | Retorna (r : bool * gmap Z (option Z) * Z)
  | Falha.

(** Lines 83-84: [if atual not in visitados: visitados[atual] = antecessor]. *)
Definition registrar (vis : gmap Z (option Z)) (a : Z) (ant : option Z)
  : gmap Z (option Z) :=
  match vis !! a with
  | Some _ => vis
  | None => <[a := ant]> vis
  end.

Section Walk.
Variables (rng : fonte) (grafo : list (list Z)) (vertice_final n : Z).

(** One evaluation of the loop test and, when it holds, of the body. *)
Definition passo (s : estado) : passo_res :=
  if i s <? 2 * n ^ 3 then
    let vis := registrar (visitados s) (atual s) (antecessor s) in
    match py_index grafo (atual s) with
    | None => Falha
    | Some row =>
        let vizinhos := vizinhos_de row in
        match vizinhos with
        | [] => Retorna (false, vis, i s)
        | _ =>
            match random_choice rng (sorteios s) vizinhos with
            | None => Falha
            | Some vizinho =>
                let i' := i s + 1 in
                if vizinho =? vertice_final
                then Retorna (true, <[vizinho := Some (atual s)]> vis, i')
                else Continua (Estado vis vizinho (Some (atual s)) i'
                                      (S (sorteios s)))
            end
        end
    end
  else Retorna (false, visitados s, i s).

Fixpoint random_walk_loop (fuel : nat) (s : estado)
  : resultado (bool * gmap Z (option Z) * Z) :=
  match passo s with
  | Retorna r => Retorno r
  | Falha => ErroIndice
  | Continua s' =>
      match fuel with
      | O => SemCombustivel
      | S fuel' => random_walk_loop fuel' s'
      end
  end.

(** The states the loop test is evaluated in, from [s0] on. *)
Inductive alcancavel (s0 : estado) : estado -> Prop :=
  | alc_inicio : alcancavel s0 s0
  | alc_passo s s' :
      alcancavel s0 s -> passo s = Continua s' -> alcancavel s0 s'.
End Walk.

(** [random_walk]: the loop runs at most [2*n**3 - i] times, which is the
    budget given to the model (see [random_walk_loop_fuel]). *)
Definition random_walk (rng : fonte) (vis : gmap Z (option Z))
    (grafo : list (list Z)) (atual : Z) (antecessor : option Z)
    (vertice_final i n : Z) : resultado (bool * gmap Z (option Z) * Z) :=
  random_walk_loop rng grafo vertice_final n (Z.to_nat (2 * n ^ 3 - i))
    (Estado vis atual antecessor i 0).

(** ** existe_caminho *)

(** [fuel] bounds the loop of [reconstruir_caminho] only. *)
Definition existe_caminho (fuel : nat) (rng : fonte) (grafo : list (list Z))
    (vertice_inicial vertice_final : Z) : resultado (bool * list Z * Z) :=
  let len := Z.of_nat (length grafo) in
  if (vertice_inicial <? 0) || (vertice_inicial >=? len)
     || (vertice_final <? 0) || (vertice_final >=? len)
  then Retorno (false, [], 0)
  else
    let n := len in
    match random_walk rng ∅ grafo vertice_inicial None vertice_final 0 n with
    | Retorno (encontrado, vis, it) =>
        if encontrado : bool then
          match reconstruir_caminho fuel vis vertice_final with
          | Some caminho_indices => Retorno (true, caminho_indices, it)
          | None => SemCombustivel
          end
        else Retorno (false, [], it)
    | ErroIndice => ErroIndice
    | SemCombustivel => SemCombustivel
    end.

(** ** Vocabulary of the statements *)

(** [grafo[u][v] == 1]. *)
Definition aresta (grafo : list (list Z)) (u v : Z) : bool :=
  match py_index grafo u with
  | Some row =>
      match py_index row v with
      | Some conectado => conectado =? 1
      | None => false
      end
  | None => false
  end.

(** A vertex index the bounds check of [existe_caminho] accepts. *)
Definition indice_valido (grafo : list (list Z)) (v : Z) : Prop :=
  0 <= v < Z.of_nat (length grafo).

(** An n-by-n matrix: every row is as long as the list of rows. *)
Definition quadrada (grafo : list (list Z)) : Prop :=
  Forall (fun row => length row = length grafo) grafo.

(** Neighbouring positions of a sequence are related by [R]. *)
Definition adjacentes {A : Type} (R : A -> A -> Prop) (l : list A) : Prop :=
  forall (k : nat) (x y : A), l !! k = Some x -> l !! S k = Some y -> R x y.

(** [cadeia vis v l]: following the predecessor links of [vis] from the key
    [v] visits exactly the vertices [l] ([v] first) and then meets None. *)
Inductive cadeia (vis : gmap Z (option Z)) : Z -> list Z -> Prop :=
  | cadeia_fim v : dict_get vis v = None -> cadeia vis v [v]
  | cadeia_elo v w l :
      dict_get vis v = Some w -> cadeia vis w l -> cadeia vis v (v :: l).

(** The shape of the predecessor map of a walk that left [inicio]: stored
    predecessors are keys, [inicio] is the one key without predecessor, every
    link is an edge of the graph, and the links of every key lead to
    [inicio]. *)
Record arvore (grafo : list (list Z)) (inicio : Z)
    (vis : gmap Z (option Z)) : Prop := Arvore {
  arv_raiz : vis !! inicio = Some None;
  arv_unica : forall v, vis !! v = Some None -> v = inicio;
  arv_fechada : forall v w, vis !! v = Some (Some w) -> is_Some (vis !! w);
  arv_aresta : forall v w, vis !! v = Some (Some w) -> aresta grafo w v = true;
  arv_cadeia : forall v, is_Some (vis !! v) ->
      exists l, cadeia vis v l /\ last l = Some inicio
}.

(** ** gerar_grafo_grande *)

(** [grafo[i][j] = x] with non-negative indices: IndexError (here [None])
    when there is no row [i] or the row has no position [j]. *)
Definition atribuir (grafo : list (list Z)) (i j : nat) (x : Z)
  : option (list (list Z)) :=
  match grafo !! i with
  | Some row =>
      if decide (j < length row)%nat then Some (<[i := <[j := x]> row]> grafo)
      else None
  | None => None
  end.

(** The source of [gerar_grafo_grande]: the outcome of the [k]-th evaluation
    of [random.random() < 0.1]. *)
Definition fonte_aresta := nat -> bool.

(** The body of the inner loop for one [j]; the state is the matrix and the
    number of draws made so far, [None] after an IndexError. *)
Definition gerar_passo (sorteio : fonte_aresta) (i : nat)
    (st : option (list (list Z) * nat)) (j : nat)
  : option (list (list Z) * nat) :=
  match st with
  | None => None
  | Some (grafo, k) =>
      if sorteio k then
        match atribuir grafo i j 1 with
        | Some g1 =>
            match atribuir g1 j i 1 with
            | Some g2 => Some (g2, S k)
            | None => None
            end
        | None => None
        end
      else Some (grafo, S k)
  end.

(** [for j in range(i + 1, n)]. *)
Definition gerar_linha (sorteio : fonte_aresta) (n : nat)
    (st : option (list (list Z) * nat)) (i : nat)
  : option (list (list Z) * nat) :=
  foldl (gerar_passo sorteio i) st (seq (S i) (n - S i)).

(** [grafo = [[0] * n for _ in range(n)]] and [for i in range(n)]; a
    non-positive [n] gives the empty matrix. *)
Definition gerar_grafo_grande (sorteio : fonte_aresta) (n : Z)
  : option (list (list Z)) :=
  let n' := Z.to_nat n in
  match foldl (gerar_linha sorteio n')
              (Some (replicate n' (replicate n' 0), 0%nat)) (seq 0 n') with
  | Some (grafo, _) => Some grafo
  | None => None
  end.

(** ** More vocabulary *)

(** [grafo[i][j]] for non-negative positions. *)
Definition entrada (grafo : list (list Z)) (i j : nat) : option Z :=
  match grafo !! i with
  | Some row => row !! j
  | None => None
  end.

(** The number of draws made before the outer loop of [gerar_grafo_grande]
    reaches row [i], and the draw that decides the pair [i < j]. *)
Fixpoint base_sorteio (n i : nat) : nat :=
  match i with
  | O => O
  | S i' => (base_sorteio n i' + (n - S i'))%nat
  end.

Definition indice_sorteio (n i j : nat) : nat :=
  (base_sorteio n (Nat.min i j) + (Nat.max i j - S (Nat.min i j)))%nat.

(** [v] can be reached from [u] along edges of the graph. *)
Inductive alcanca (grafo : list (list Z)) (u : Z) : Z -> Prop :=
  | alcanca_refl : alcanca grafo u u
  | alcanca_passo v w :
      alcanca grafo u v -> aresta grafo v w = true -> alcanca grafo u w.

(** An undirected graph: edges between vertices go both ways. *)
Definition simetrica (grafo : list (list Z)) : Prop :=
  forall u v : Z, 0 <= u -> 0 <= v ->
    aresta grafo u v = true -> aresta grafo v u = true.

(** No chain of predecessor links from a key of [vis] has more than [k]
    vertices. *)
Definition profundidade_ate (vis : gmap Z (option Z)) (k : nat) : Prop :=
  forall v l, is_Some (vis !! v) -> cadeia vis v l -> (length l <= k)%nat.

(** The entry [gerar_grafo_grande] leaves at row [a], column [b]: the
    diagonal stays 0, the rest follows the draw made for the pair. *)
Definition valor_gerado (sorteio : fonte_aresta) (n a b : nat) : Z :=
  if decide (a = b) then 0
  else if sorteio (indice_sorteio n a b) then 1 else 0.

(** The state of [gerar_grafo_grande] when the outer loop is at row [i] and
    the inner loop is about to take column [lim]: an n-by-n matrix whose
    entries are decided for the pairs met so far and 0 elsewhere, and the
    number of draws made. *)
Definition gerado_ate (sorteio : fonte_aresta) (n i lim : nat)
    (st : list (list Z) * nat) : Prop :=
  length st.1 = n /\
  Forall (fun row => length row = n) st.1 /\
  st.2 = (base_sorteio n i + (lim - S i))%nat /\
  forall a b : nat, (a < n)%nat -> (b < n)%nat ->
    entrada st.1 a b =
    Some (if decide (a <> b /\
                     (Nat.min a b < i \/
                      (Nat.min a b = i /\ Nat.max a b < lim)))%nat
          then valor_gerado sorteio n a b else 0).

(** The path reconstruction as the specification words it, on the stored
    entries themselves: [l] starts at [target], every next vertex is the
    predecessor stored for the one before it, and [l] stops at a vertex whose
    predecessor is the sentinel none (stored as None, or not stored). *)
Definition segue_predecessores (vis : gmap Z (option Z)) (target : Z)
    (l : list Z) : Prop :=
  head l = Some target /\
  (forall (k : nat) (x y : Z),
     l !! k = Some x -> l !! S k = Some y -> vis !! x = Some (Some y)) /\
  (exists z, last l = Some z /\ (vis !! z = None \/ vis !! z = Some None)).

(** ** The graphs of the docstrings and of the script *)

Definition grafo4 : list (list Z) :=
  [ [0; 1; 1; 0]; [1; 0; 0; 1]; [1; 0; 0; 1]; [0; 1; 1; 0] ].

Definition grafo5 : list (list Z) :=
  [ [0; 1; 0; 1; 0]; [1; 0; 1; 0; 0]; [0; 1; 0; 1; 0]; [1; 0; 1; 0; 0];
    [0; 0; 0; 0; 0] ].

Definition grafo2 : list (list Z) := [ [0; 1]; [1; 0] ].

Definition grafo1 : list (list Z) := [ [0] ].

Example existe_caminho_docstring :
  existe_caminho 10 (fun _ => 1%nat) grafo4 0 3 = Retorno (true, [0; 2; 3], 2).
Proof. vm_compute. reflexivity. Qed.

Example random_walk_docstring :
  random_walk (fun _ => 1%nat) ∅ grafo4 0 None 3 0 4
  = Retorno (true, <[3 := Some 2]> (<[2 := Some 0]> (<[0 := None]> ∅)), 2).
Proof. vm_compute. reflexivity. Qed.

Example existe_caminho_isolado :
  existe_caminho 10 (fun _ => 0%nat) grafo5 0 4 = Retorno (false, [], 250).
Proof. vm_compute. reflexivity. Qed.

(** ** Facts about the primitives *)

Lemma py_index_nonneg {A : Type} (l : list A) (v : Z) :
  0 <= v -> py_index l v = l !! Z.to_nat v.
Proof.
  intros Hv. unfold py_index.
  destruct (0 <=? v) eqn:E; [reflexivity | lia].
Qed.

Lemma py_index_valido {A : Type} (l : list A) (v : Z) :
  0 <= v < Z.of_nat (length l) -> is_Some (py_index l v).
Proof.
  intros Hv. rewrite py_index_nonneg by lia.
  apply lookup_lt_is_Some. lia.
Qed.

Lemma vizinhos_desde_elem (row : list Z) : forall (idx x : Z),
  x ∈ vizinhos_desde idx row <->
  exists j : nat, x = idx + Z.of_nat j /\ row !! j = Some 1.
Proof.
  induction row as [|c resto IH]; intros idx x; simpl.
  - split.
    + intros H. inversion H.
    + intros (j & _ & Hj). destruct j; discriminate.
  - destruct (c =? 1) eqn:Ec.
    + rewrite elem_of_cons, IH. split.
      * intros [-> | (j & -> & Hj)].
        -- exists 0%nat. split; [lia|]. simpl. f_equal. lia.
        -- exists (S j). split; [lia | exact Hj].
      * intros (j & -> & Hj). destruct j as [|j].
        -- left. lia.
        -- right. exists j. split; [lia | exact Hj].
    + rewrite IH. split.
      * intros (j & -> & Hj). exists (S j). split; [lia | exact Hj].
      * intros (j & -> & Hj). destruct j as [|j].
        -- simpl in Hj. injection Hj as ->. discriminate.
        -- exists j. split; [lia | exact Hj].
Qed.

Lemma vizinhos_de_elem (row : list Z) (x : Z) :
  x ∈ vizinhos_de row <-> 0 <= x /\ row !! Z.to_nat x = Some 1.
Proof.
  unfold vizinhos_de. rewrite vizinhos_desde_elem. split.
  - intros (j & -> & Hj). split; [lia|].
    replace (Z.to_nat (0 + Z.of_nat j)) with j by lia. exact Hj.
  - intros [Hx Hr]. exists (Z.to_nat x). split; [lia | exact Hr].
Qed.

Lemma vizinhos_de_bound (row : list Z) (x : Z) :
  x ∈ vizinhos_de row -> 0 <= x < Z.of_nat (length row).
Proof.
  rewrite vizinhos_de_elem. intros [Hx Hr].
  apply lookup_lt_Some in Hr. lia.
Qed.

Lemma vizinhos_de_aresta (grafo : list (list Z)) (row : list Z) (u x : Z) :
  py_index grafo u = Some row -> x ∈ vizinhos_de row -> aresta grafo u x = true.
Proof.
  intros Hrow [Hx Hr]%vizinhos_de_elem. unfold aresta.
  rewrite Hrow, py_index_nonneg, Hr by lia. reflexivity.
Qed.

Lemma random_choice_elem (rng : fonte) (k : nat) (seq : list Z) (v : Z) :
  random_choice rng k seq = Some v -> v ∈ seq.
Proof.
  unfold random_choice. destruct seq as [|x seq]; [discriminate|].
  intros H. apply list_elem_of_lookup. eauto.
Qed.

Lemma random_choice_some (rng : fonte) (k : nat) (seq : list Z) :
  seq <> [] -> is_Some (random_choice rng k seq).
Proof.
  unfold random_choice. destruct seq as [|x seq]; [congruence|].
  intros _. apply lookup_lt_is_Some. apply Nat.mod_upper_bound. discriminate.
Qed.

Lemma registrar_lookup_old (vis : gmap Z (option Z)) (a v : Z) (ant : option Z) :
  is_Some (vis !! v) -> registrar vis a ant !! v = vis !! v.
Proof.
  intros Hv. unfold registrar. destruct (vis !! a) eqn:Ea; [reflexivity|].
  apply lookup_insert_ne. intros ->. rewrite Ea in Hv. by destruct Hv.
Qed.

Lemma registrar_lookup_self (vis : gmap Z (option Z)) (a : Z) (ant : option Z) :
  registrar vis a ant !! a = Some (default ant (vis !! a)).
Proof.
  unfold registrar. destruct (vis !! a) eqn:Ea; simpl.
  - exact Ea.
  - apply lookup_insert_eq.
Qed.

Lemma registrar_lookup_ne (vis : gmap Z (option Z)) (a v : Z) (ant : option Z) :
  a <> v -> registrar vis a ant !! v = vis !! v.
Proof.
  intros Hne. unfold registrar. destruct (vis !! a); [reflexivity|].
  by apply lookup_insert_ne.
Qed.

(** ** One iteration of the walk *)

Section WalkFacts.
Variables (rng : fonte) (grafo : list (list Z)) (vertice_final n : Z).

Local Abbreviation passo := (passo rng grafo vertice_final n).
Local Abbreviation random_walk_loop := (random_walk_loop rng grafo vertice_final n).
Local Abbreviation alcancavel := (alcancavel rng grafo vertice_final n).

Lemma passo_continua (s s' : estado) :
  passo s = Continua s' ->
  i s < 2 * n ^ 3 /\
  exists row, py_index grafo (atual s) = Some row /\
    atual s' ∈ vizinhos_de row /\
    atual s' <> vertice_final /\
    s' = Estado (registrar (visitados s) (atual s) (antecessor s))
                (atual s') (Some (atual s)) (i s + 1) (S (sorteios s)).
Proof.
  unfold passo. destruct (i s <? 2 * n ^ 3) eqn:Ei; [|discriminate].
  destruct (py_index grafo (atual s)) as [row|] eqn:Erow; [|discriminate].
  destruct (vizinhos_de row) as [|x l] eqn:Ev; [discriminate|].
  destruct (random_choice rng (sorteios s) (x :: l)) as [v|] eqn:Ec;
    [|discriminate].
  destruct (v =? vertice_final) eqn:Et; [discriminate|].
  intros [= <-]. split; [lia|]. exists row. simpl.
  repeat split; try done.
  - rewrite Ev. by eapply random_choice_elem.
  - lia.
Qed.

Lemma passo_encontrado (s : estado) (m : gmap Z (option Z)) (j : Z) :
  passo s = Retorna (true, m, j) ->
  i s < 2 * n ^ 3 /\ j = i s + 1 /\
  m = <[vertice_final := Some (atual s)]>
        (registrar (visitados s) (atual s) (antecessor s)) /\
  exists row, py_index grafo (atual s) = Some row /\
    vertice_final ∈ vizinhos_de row.
Proof.
  unfold passo. destruct (i s <? 2 * n ^ 3) eqn:Ei; [|discriminate].
  destruct (py_index grafo (atual s)) as [row|] eqn:Erow; [|discriminate].
  destruct (vizinhos_de row) as [|x l] eqn:Ev; [discriminate|].
  destruct (random_choice rng (sorteios s) (x :: l)) as [v|] eqn:Ec;
    [|discriminate].
  destruct (v =? vertice_final) eqn:Et; [|discriminate].
  assert (v = vertice_final) as -> by lia.
  intros [= <- <-]. repeat split; try lia.
  exists row. split; [done|]. rewrite Ev. by eapply random_choice_elem.
Qed.

Lemma passo_nao_encontrado (s : estado) (m : gmap Z (option Z)) (j : Z) :
  passo s = Retorna (false, m, j) ->
  j = i s /\
  ((2 * n ^ 3 <= i s /\ m = visitados s) \/
   (i s < 2 * n ^ 3 /\
    m = registrar (visitados s) (atual s) (antecessor s) /\
    exists row, py_index grafo (atual s) = Some row /\ vizinhos_de row = [])).
Proof.
  unfold passo. destruct (i s <? 2 * n ^ 3) eqn:Ei.
  - destruct (py_index grafo (atual s)) as [row|] eqn:Erow; [|discriminate].
    destruct (vizinhos_de row) as [|x l] eqn:Ev.
    + intros [= <- <-]. split; [done|]. right. repeat split; [lia|].
      by exists row.
    + destruct (random_choice rng (sorteios s) (x :: l)) as [v|]; [|discriminate].
      destruct (v =? vertice_final); discriminate.
  - intros [= <- <-]. split; [done|]. left. split; [lia | done].
Qed.

Lemma passo_falha (s : estado) :
  passo s = Falha -> i s < 2 * n ^ 3 /\ py_index grafo (atual s) = None.
Proof.
  unfold passo. destruct (i s <? 2 * n ^ 3) eqn:Ei; [|discriminate].
  destruct (py_index grafo (atual s)) as [row|] eqn:Erow.
  - destruct (vizinhos_de row) as [|x l] eqn:Ev; [discriminate|].
    destruct (random_choice_some rng (sorteios s) (x :: l)) as [v Hv];
      [discriminate|].
    rewrite Hv. destruct (v =? vertice_final); discriminate.
  - intros _. split; [lia | done].
Qed.

Lemma alcancavel_trans (s0 s1 s2 : estado) :
  alcancavel s0 s1 -> alcancavel s1 s2 -> alcancavel s0 s2.
Proof.
  intros H01 H12. induction H12 as [|s s' _ IH Hp]; [done|].
  eapply alc_passo; eauto.
Qed.

(** A returned value is what the last iteration returned. *)
Lemma random_walk_loop_retorno (fuel : nat) : forall (s : estado) r,
  random_walk_loop fuel s = Retorno r ->
  exists s', alcancavel s s' /\ passo s' = Retorna r.
Proof.
  induction fuel as [|fuel IH]; intros s r; simpl;
    destruct (passo s) as [s1|r1|] eqn:Ep; try discriminate.
  - intros [= <-]. exists s. split; [constructor | done].
  - intros (s' & Hs' & Hr)%IH. exists s'. split; [|done].
    eapply alcancavel_trans; [|exact Hs'].
    eapply alc_passo; [constructor | done].
  - intros [= <-]. exists s. split; [constructor | done].
Qed.

(** An IndexError comes from indexing [grafo] at the current vertex. *)
Lemma random_walk_loop_erro (fuel : nat) : forall (s : estado),
  random_walk_loop fuel s = ErroIndice ->
  exists s', alcancavel s s' /\ py_index grafo (atual s') = None.
Proof.
  induction fuel as [|fuel IH]; intros s; simpl;
    destruct (passo s) as [s1|r1|] eqn:Ep; try discriminate.
  - intros _. exists s. split; [constructor | by apply passo_falha].
  - intros (s' & Hs' & Hr)%IH. exists s'. split; [|done].
    eapply alcancavel_trans; [|exact Hs'].
    eapply alc_passo; [constructor | done].
  - intros _. exists s. split; [constructor | by apply passo_falha].
Qed.

(** The budget [2*n**3 - i] is never used up: the loop always exits. *)
Lemma random_walk_loop_fuel (fuel : nat) : forall (s : estado),
  (Z.to_nat (2 * n ^ 3 - i s) <= fuel)%nat ->
  random_walk_loop fuel s <> SemCombustivel.
Proof.
  induction fuel as [|fuel IH]; intros s Hf; simpl;
    destruct (passo s) as [s1|r1|] eqn:Ep; try discriminate.
  - apply passo_continua in Ep as [Hi _]. lia.
  - apply passo_continua in Ep as (Hi & row & _ & _ & _ & ->).
    apply IH. simpl. lia.
Qed.

(** More budget than needed changes nothing. *)
Lemma random_walk_loop_mono (fuel : nat) : forall (fuel' : nat) (s : estado),
  (fuel <= fuel')%nat ->
  random_walk_loop fuel s <> SemCombustivel ->
  random_walk_loop fuel' s = random_walk_loop fuel s.
Proof.
  induction fuel as [|fuel IH]; intros fuel' s Hle; simpl.
  - destruct fuel'; simpl; destruct (passo s); congruence.
  - destruct fuel' as [|fuel']; [lia|]. simpl.
    destruct (passo s); try done. apply IH. lia.
Qed.

(** The counter grows by one per iteration, and with it the number of
    draws. *)
Lemma alcancavel_contador (s0 s : estado) :
  alcancavel s0 s ->
  i s0 <= i s /\
  i s - i s0 = Z.of_nat (sorteios s) - Z.of_nat (sorteios s0) /\
  (i s0 <= 2 * n ^ 3 -> i s <= 2 * n ^ 3) /\
  (i s0 < i s -> i s <= 2 * n ^ 3).
Proof.
  induction 1 as [|s s' _ IH Hp]; [lia|].
  apply passo_continua in Hp as (Hi & row & _ & _ & _ & ->). simpl. lia.
Qed.
End WalkFacts.

(** ** Following predecessor links *)

Lemma cadeia_head (vis : gmap Z (option Z)) (v : Z) (l : list Z) :
  cadeia vis v l -> head l = Some v.
Proof. by destruct 1. Qed.

Lemma cadeia_funcional (vis : gmap Z (option Z)) (v : Z) (l1 : list Z) :
  cadeia vis v l1 -> forall l2, cadeia vis v l2 -> l1 = l2.
Proof.
  induction 1 as [v Hv | v w l Hv _ IH]; intros l2 H2; inversion H2; subst;
    try congruence.
  f_equal. apply IH. congruence.
Qed.

(** A chain is what the loop of [reconstruir_caminho] appends. *)
Lemma reconstruir_loop_cadeia (vis : gmap Z (option Z)) (v : Z) (l : list Z) :
  cadeia vis v l ->
  forall (fuel : nat) (acc : list Z), (length l <= fuel)%nat ->
    reconstruir_loop fuel vis (Some v) acc = Some (acc ++ l).
Proof.
  induction 1 as [v Hv | v w l Hv _ IH]; intros fuel acc Hf;
    (destruct fuel as [|fuel]; [simpl in Hf; lia|]); simpl; rewrite Hv.
  - by destruct fuel.
  - rewrite IH by (simpl in Hf; lia). by rewrite <- app_assoc.
Qed.

Lemma reconstruir_loop_some (fuel : nat) (vis : gmap Z (option Z)) :
  forall (v : Z) (acc p : list Z),
    reconstruir_loop fuel vis (Some v) acc = Some p ->
    exists l, cadeia vis v l /\ (length l <= fuel)%nat /\ p = acc ++ l.
Proof.
  induction fuel as [|fuel IH]; intros v acc p; simpl; [discriminate|].
  destruct (dict_get vis v) as [w|] eqn:Ev.
  - intros (l & Hl & Hlen & ->)%IH. exists (v :: l).
    split; [by eapply cadeia_elo|]. split; [simpl; lia|].
    by rewrite <- app_assoc.
  - destruct fuel; simpl; intros [= <-]; exists [v];
      (split; [by constructor|]); split; simpl; (lia || done).
Qed.

(** In a map all of whose keys have a predecessor that is again a key, the
    loop never meets None. *)
Lemma reconstruir_loop_ciclo (vis : gmap Z (option Z)) :
  (forall v, is_Some (vis !! v) ->
     exists w, vis !! v = Some (Some w) /\ is_Some (vis !! w)) ->
  forall (fuel : nat) (v : Z) (acc : list Z), is_Some (vis !! v) ->
    reconstruir_loop fuel vis (Some v) acc = None.
Proof.
  intros Hfech. induction fuel as [|fuel IH]; intros v acc Hv; simpl; [done|].
  destruct (Hfech v Hv) as (w & Hw & Hkw).
  unfold dict_get. rewrite Hw. by apply IH.
Qed.

Lemma reconstruir_caminho_cadeia (vis : gmap Z (option Z)) (v : Z) (l : list Z)
    (fuel : nat) :
  cadeia vis v l -> (length l <= fuel)%nat ->
  reconstruir_caminho fuel vis v = Some (rev l).
Proof.
  intros Hl Hf. unfold reconstruir_caminho.
  by rewrite (reconstruir_loop_cadeia _ _ _ Hl fuel []).
Qed.

Lemma reconstruir_caminho_some (vis : gmap Z (option Z)) (v : Z) (p : list Z)
    (fuel : nat) :
  reconstruir_caminho fuel vis v = Some p ->
  exists l, cadeia vis v l /\ (length l <= fuel)%nat /\ p = rev l.
Proof.
  unfold reconstruir_caminho.
  destruct (reconstruir_loop fuel vis (Some v) []) as [c|] eqn:Ec; [|discriminate].
  intros [= <-]. apply reconstruir_loop_some in Ec as (l & Hl & Hf & ->).
  by exists l.
Qed.

(** The chains the loop follows are the lists the specification describes. *)
Lemma cadeia_segue_predecessores (vis : gmap Z (option Z)) (v : Z) (l : list Z) :
  cadeia vis v l <-> segue_predecessores vis v l.
Proof.
  split.
  - induction 1 as [v Hv | v w l Hv Hl (Hhead & Hadj & z & Hlast & Hz)].
    + split; [done|]. split.
      * intros k x y _ Hy. destruct k; discriminate.
      * exists v. split; [done|]. unfold dict_get in Hv.
        destruct (vis !! v) as [[?|]|]; [discriminate | by right | by left].
    + assert (vis !! v = Some (Some w)) as Hvw.
      { unfold dict_get in Hv. destruct (vis !! v) as [[?|]|]; congruence. }
      split; [done|]. split.
      * intros k x y Hx Hy. destruct k as [|k].
        -- simpl in Hx, Hy. injection Hx as <-.
           rewrite <- head_lookup, Hhead in Hy. by injection Hy as <-.
        -- by apply (Hadj k).
      * exists z. split; [|done]. destruct l as [|y l]; [discriminate|].
        by rewrite last_cons_cons.
  - revert v. induction l as [|x l IH]; intros v (Hhead & Hadj & z & Hlast & Hz);
      [discriminate|].
    injection Hhead as ->. destruct l as [|y l].
    + injection Hlast as <-. apply cadeia_fim. unfold dict_get.
      by destruct Hz as [-> | ->].
    + assert (vis !! v = Some (Some y)) as Hvy by by apply (Hadj 0%nat).
      eapply cadeia_elo; [unfold dict_get; by rewrite Hvy|].
      apply IH. split; [done|]. split.
      * intros k a b Ha Hb. by apply (Hadj (S k)).
      * exists z. split; [|done]. by rewrite last_cons_cons in Hlast.
Qed.

(** C7.  [reconstruir_caminho] depends on its arguments only.  It returns
    [p] exactly when [p] is the reversal of the list that starts at the
    target, continues from each vertex with the predecessor stored for it in
    the map, stops at a vertex whose predecessor is None (stored or absent),
    and is within the budget.  In particular, when the target is not a key
    of the map the result is the one-element list [[target]]. *)
Theorem reconstruir_caminho_spec (vis : gmap Z (option Z)) (target : Z) :
  (forall (fuel : nat) (p : list Z),
     reconstruir_caminho fuel vis target = Some p <->
     exists l, segue_predecessores vis target l /\ (length l <= fuel)%nat /\
               p = rev l) /\
  (vis !! target = None ->
   forall fuel : nat, reconstruir_caminho (S fuel) vis target = Some [target]).
Proof.
  split.
  - intros fuel p. split.
    + intros (l & Hl & Hf & ->)%reconstruir_caminho_some.
      exists l. by rewrite <- cadeia_segue_predecessores.
    + intros (l & Hl%cadeia_segue_predecessores & Hf & ->).
      by apply reconstruir_caminho_cadeia.
  - intros Habs fuel.
    apply (reconstruir_caminho_cadeia vis target [target]); [|simpl; lia].
    constructor. unfold dict_get. by rewrite Habs.
Qed.

Lemma reconstruir_caminho_spec_witness :
  (exists l, segue_predecessores
               (<[3 := Some 2]> (<[2 := Some 1]> (<[1 := Some 0]> ∅))) 3 l /\
             (length l <= 4)%nat /\ [0; 1; 2; 3] = rev l) /\
  reconstruir_caminho 1 (<[1 := Some 0]> ∅) 5 = Some [5].
Proof.
  split.
  - apply (proj1 (proj1 (reconstruir_caminho_spec
             (<[3 := Some 2]> (<[2 := Some 1]> (<[1 := Some 0]> ∅))) 3)
             4%nat [0; 1; 2; 3])).
    vm_compute. reflexivity.
  - apply (proj2 (reconstruir_caminho_spec (<[1 := Some 0]> ∅) 5)); reflexivity.
Defined.

(** ** The bounds check and the dead end *)

(** C2.  When [start] or [target] is outside [0, n), [existe_caminho] returns
    [(False, [], 0)] whatever the random source, the contents of the graph
    and the budget are: the answer is computed before any walk. *)
Theorem existe_caminho_fora_do_intervalo (fuel : nat) (rng : fonte)
    (grafo : list (list Z)) (start target : Z) :
  start < 0 \/ start >= Z.of_nat (length grafo) \/
  target < 0 \/ target >= Z.of_nat (length grafo) ->
  existe_caminho fuel rng grafo start target = Retorno (false, [], 0).
Proof.
  intros H. unfold existe_caminho.
  destruct ((start <? 0) || (start >=? Z.of_nat (length grafo))
            || (target <? 0) || (target >=? Z.of_nat (length grafo))) eqn:E;
    [reflexivity|].
  repeat (apply orb_false_elim in E as [E ?]). lia.
Qed.

Lemma existe_caminho_fora_do_intervalo_witness :
  existe_caminho 0 (fun _ => 0%nat) grafo4 (-1) 4 = Retorno (false, [], 0).
Proof.
  apply (existe_caminho_fora_do_intervalo 0 (fun _ => 0%nat) grafo4 (-1) 4).
  left. lia.
Defined.

Lemma existe_caminho_valido (fuel : nat) (rng : fonte) (grafo : list (list Z))
    (start target : Z) :
  indice_valido grafo start -> indice_valido grafo target ->
  existe_caminho fuel rng grafo start target =
  match random_walk rng ∅ grafo start None target 0 (Z.of_nat (length grafo)) with
  | Retorno (encontrado, vis, it) =>
      if encontrado : bool then
        match reconstruir_caminho fuel vis target with
        | Some caminho_indices => Retorno (true, caminho_indices, it)
        | None => SemCombustivel
        end
      else Retorno (false, [], it)
  | ErroIndice => ErroIndice
  | SemCombustivel => SemCombustivel
  end.
Proof.
  unfold indice_valido. intros Hs Ht. unfold existe_caminho.
  destruct ((start <? 0) || (start >=? Z.of_nat (length grafo))
            || (target <? 0) || (target >=? Z.of_nat (length grafo))) eqn:E;
    [|reflexivity].
  repeat (apply orb_true_elim in E as [E|E]); lia.
Qed.

Lemma cap_positivo (grafo : list (list Z)) (v : Z) :
  indice_valido grafo v -> 0 < 2 * Z.of_nat (length grafo) ^ 3.
Proof. unfold indice_valido. intros Hv. nia. Qed.

Lemma vizinhos_de_vazio (row : list Z) :
  vizinhos_de row = [] <-> forall idx : nat, row !! idx <> Some 1.
Proof.
  split.
  - intros Hv idx Hidx.
    assert (Z.of_nat idx ∈ vizinhos_de row) as Hin.
    { apply vizinhos_de_elem. split; [lia|]. by rewrite Nat2Z.id. }
    rewrite Hv in Hin. inversion Hin.
  - intros Hno. destruct (vizinhos_de row) as [|x l] eqn:Ev; [done|].
    assert (x ∈ vizinhos_de row) as [_ Hx]%vizinhos_de_elem
      by (rewrite Ev; left).
    by apply Hno in Hx.
Qed.

(** The dead end of lines 87-88. *)
Lemma random_walk_loop_beco (rng : fonte) (grafo : list (list Z))
    (vertice_final n : Z) (fuel : nat) (s : estado) (row : list Z) :
  i s < 2 * n ^ 3 ->
  py_index grafo (atual s) = Some row ->
  (forall idx : nat, row !! idx <> Some 1) ->
  random_walk_loop rng grafo vertice_final n fuel s =
  Retorno (false, registrar (visitados s) (atual s) (antecessor s), i s).
Proof.
  intros Hi Hrow Hno. apply vizinhos_de_vazio in Hno.
  assert (passo rng grafo vertice_final n s =
          Retorna (false, registrar (visitados s) (atual s) (antecessor s), i s))
    as Hp.
  { unfold passo. destruct (i s <? 2 * n ^ 3) eqn:Ei; [|lia].
    by rewrite Hrow, Hno. }
  destruct fuel; simpl; by rewrite Hp.
Qed.

(** C5.  When the loop body runs at a vertex whose row has no entry equal
    to 1, [random_walk] returns at once: not found, the map as it is after
    recording the current vertex, and the counter unchanged.  For a valid
    start vertex without edges and another valid target, [existe_caminho]
    returns [(False, [], 0)]. *)
Theorem random_walk_beco_sem_saida :
  (forall (rng : fonte) (grafo : list (list Z)) (vertice_final n : Z)
          (fuel : nat) (s : estado) (row : list Z),
     i s < 2 * n ^ 3 ->
     py_index grafo (atual s) = Some row ->
     (forall idx : nat, row !! idx <> Some 1) ->
     random_walk_loop rng grafo vertice_final n fuel s =
     Retorno (false, registrar (visitados s) (atual s) (antecessor s), i s)) /\
  (forall (fuel : nat) (rng : fonte) (grafo : list (list Z))
          (start target : Z) (row : list Z),
     indice_valido grafo start -> indice_valido grafo target ->
     start <> target ->
     py_index grafo start = Some row ->
     (forall idx : nat, row !! idx <> Some 1) ->
     existe_caminho fuel rng grafo start target = Retorno (false, [], 0)).
Proof.
  split.
  - intros rng grafo vertice_final n fuel s row. apply random_walk_loop_beco.
  - intros fuel rng grafo start target row Hs Ht _ Hrow Hno.
    rewrite existe_caminho_valido by done. unfold random_walk.
    erewrite random_walk_loop_beco; [reflexivity | | exact Hrow | exact Hno].
    simpl. by eapply cap_positivo.
Qed.

Lemma random_walk_beco_sem_saida_witness :
  random_walk_loop (fun _ => 0%nat) grafo5 0 5 3%nat (Estado ∅ 4 (Some 2) 7 7) =
    Retorno (false, registrar ∅ 4 (Some 2), 7) /\
  existe_caminho 0 (fun _ => 0%nat) grafo5 4 0 = Retorno (false, [], 0).
Proof.
  assert (forall idx : nat, [0; 0; 0; 0; 0] !! idx <> Some 1) as Hno.
  { intros idx. do 5 (destruct idx as [|idx]; [discriminate|]). discriminate. }
  split.
  - apply (proj1 random_walk_beco_sem_saida (fun _ => 0%nat) grafo5 0 5 3%nat
             (Estado ∅ 4 (Some 2) 7 7) [0; 0; 0; 0; 0]);
      [simpl; lia | reflexivity | exact Hno].
  - apply (proj2 random_walk_beco_sem_saida 0%nat (fun _ => 0%nat) grafo5 4 0
             [0; 0; 0; 0; 0]);
      [unfold indice_valido; simpl; lia | unfold indice_valido; simpl; lia
      | lia | reflexivity | exact Hno].
Defined.

(** ** The counter *)

(** C10.  A walk that returns found has taken at least one transition: the
    returned count is greater than the count it was started with, so
    [existe_caminho] never returns found together with zero iterations. *)
Theorem random_walk_encontrado_conta :
  (forall (rng : fonte) (vis : gmap Z (option Z)) (grafo : list (list Z))
          (atual : Z) (antecessor : option Z) (vertice_final i n : Z)
          (m : gmap Z (option Z)) (j : Z),
     random_walk rng vis grafo atual antecessor vertice_final i n
       = Retorno (true, m, j) -> i < j) /\
  (forall (fuel : nat) (rng : fonte) (grafo : list (list Z))
          (start target : Z) (caminho : list Z) (it : Z),
     existe_caminho fuel rng grafo start target = Retorno (true, caminho, it) ->
     0 < it).
Proof.
  assert (forall rng vis grafo atual antecessor vertice_final i n m j,
     random_walk rng vis grafo atual antecessor vertice_final i n
       = Retorno (true, m, j) -> i < j) as Hwalk.
  { intros rng vis grafo a ant vf i0 n m j Hr. unfold random_walk in Hr.
    apply random_walk_loop_retorno in Hr as (s' & Hs' & Hp).
    apply alcancavel_contador in Hs' as [Hle _].
    apply passo_encontrado in Hp as (_ & -> & _). simpl in Hle. lia. }
  split; [exact Hwalk|].
  intros fuel rng grafo start target caminho it. unfold existe_caminho.
  destruct ((start <? 0) || (start >=? Z.of_nat (length grafo))
            || (target <? 0) || (target >=? Z.of_nat (length grafo)));
    [discriminate|].
  destruct (random_walk rng ∅ grafo start None target 0
              (Z.of_nat (length grafo))) as [[[found m] j]| |] eqn:Ew;
    try discriminate.
  destruct found; [|discriminate].
  destruct (reconstruir_caminho fuel m target); [|discriminate].
  intros [= _ <-]. by eapply Hwalk.
Qed.

Lemma random_walk_encontrado_conta_witness : 0 < 2.
Proof.
  apply (proj2 random_walk_encontrado_conta 10%nat (fun _ => 1%nat) grafo4 0 3
           [0; 2; 3] 2).
  vm_compute. reflexivity.
Defined.

(** C8.  A walk started with the counter at 0 for an [n >= 0]: at every
    evaluation of the loop test the counter equals the number of neighbour
    choices made so far and does not exceed the cap [2*n**3]; when the test
    fails the function returns not found with the counter exactly at the cap;
    whatever is returned carries a count between 0 and the cap. *)
Theorem random_walk_limite (rng : fonte) (vis : gmap Z (option Z))
    (grafo : list (list Z)) (atual0 : Z) (antecessor0 : option Z)
    (vertice_final n : Z) :
  0 <= n ->
  (forall s : estado,
     alcancavel rng grafo vertice_final n (Estado vis atual0 antecessor0 0 0) s ->
     i s = Z.of_nat (sorteios s) /\ i s <= 2 * n ^ 3 /\
     (~ i s < 2 * n ^ 3 ->
      passo rng grafo vertice_final n s = Retorna (false, visitados s, 2 * n ^ 3))) /\
  (forall (found : bool) (m : gmap Z (option Z)) (j : Z),
     random_walk rng vis grafo atual0 antecessor0 vertice_final 0 n
       = Retorno (found, m, j) -> 0 <= j <= 2 * n ^ 3) /\
  random_walk rng vis grafo atual0 antecessor0 vertice_final 0 n <> SemCombustivel.
Proof.
  intros Hn. assert (0 <= 2 * n ^ 3) as Hcap by nia.
  assert (forall s : estado,
     alcancavel rng grafo vertice_final n (Estado vis atual0 antecessor0 0 0) s ->
     i s = Z.of_nat (sorteios s) /\ 0 <= i s <= 2 * n ^ 3) as Hinv.
  { intros s Hs. apply alcancavel_contador in Hs. simpl in Hs. lia. }
  split; [|split].
  - intros s Hs. destruct (Hinv s Hs) as [Hk [Hlo Hhi]].
    repeat split; try done.
    intros Hge. unfold passo. destruct (i s <? 2 * n ^ 3) eqn:Ei; [lia|].
    do 2 f_equal. lia.
  - intros found m j Hr. unfold random_walk in Hr.
    apply random_walk_loop_retorno in Hr as (s' & Hs' & Hp).
    destruct (Hinv s' Hs') as [_ Hb]. destruct found.
    + apply passo_encontrado in Hp as (Hi & -> & _). lia.
    + apply passo_nao_encontrado in Hp as [-> _]. lia.
  - unfold random_walk. apply random_walk_loop_fuel. simpl. lia.
Qed.

Lemma random_walk_limite_witness :
  random_walk (fun _ => 0%nat) ∅ grafo4 0 None 3 0 4 <> SemCombustivel /\
  random_walk (fun _ => 0%nat) ∅ grafo4 0 None 3 0 4
    = Retorno (false, <[1 := Some 0]> (<[0 := None]> ∅), 128).
Proof.
  split.
  - apply (random_walk_limite (fun _ => 0%nat) ∅ grafo4 0 None 3 4). lia.
  - vm_compute. reflexivity.
Defined.

(** ** First visit wins *)

Lemma alcancavel_preserva (rng : fonte) (grafo : list (list Z))
    (vertice_final n : Z) (s s' : estado) :
  alcancavel rng grafo vertice_final n s s' ->
  forall v, is_Some (visitados s !! v) -> visitados s' !! v = visitados s !! v.
Proof.
  induction 1 as [|s1 s2 _ IH Hp]; intros v Hv; [done|].
  apply passo_continua in Hp as (_ & row & _ & _ & _ & ->). simpl.
  rewrite registrar_lookup_old; [by apply IH|].
  rewrite IH by done. done.
Qed.

(** C6.  From any point of a walk on, a vertex that has an entry keeps it:
    at every later evaluation of the loop test, and in the returned map,
    except for the target of a walk that returns found, whose entry is then
    the vertex the walk was at, whatever was stored before. *)
Theorem random_walk_primeira_visita (rng : fonte) (grafo : list (list Z))
    (vertice_final n : Z) (s : estado) :
  (forall s' : estado,
     alcancavel rng grafo vertice_final n s s' ->
     forall v, is_Some (visitados s !! v) ->
       visitados s' !! v = visitados s !! v /\
       registrar (visitados s') (atual s') (antecessor s') !! v
         = visitados s !! v) /\
  (forall (fuel : nat) (found : bool) (m : gmap Z (option Z)) (j : Z),
     random_walk_loop rng grafo vertice_final n fuel s = Retorno (found, m, j) ->
     (forall v, is_Some (visitados s !! v) ->
        v <> vertice_final \/ found = false -> m !! v = visitados s !! v) /\
     (found = true ->
      exists s' : estado,
        alcancavel rng grafo vertice_final n s s' /\
        m !! vertice_final = Some (Some (atual s')))).
Proof.
  split.
  - intros s' Hs' v Hv.
    pose proof (alcancavel_preserva _ _ _ _ _ _ Hs' v Hv) as Heq.
    split; [done|]. rewrite registrar_lookup_old; [done|]. by rewrite Heq.
  - intros fuel found m j Hr.
    apply random_walk_loop_retorno in Hr as (s' & Hs' & Hp).
    pose proof (alcancavel_preserva _ _ _ _ _ _ Hs') as Hkeep.
    destruct found.
    + apply passo_encontrado in Hp as (_ & _ & -> & _). split.
      * intros v Hv [Hne | Hf]; [|discriminate].
        rewrite lookup_insert_ne by done.
        rewrite registrar_lookup_old; [by apply Hkeep|].
        by rewrite Hkeep.
      * intros _. exists s'. split; [done|]. apply lookup_insert_eq.
    + split; [|discriminate]. intros v Hv _.
      apply passo_nao_encontrado in Hp as [_ [[_ ->] | (_ & -> & _)]].
      * by apply Hkeep.
      * rewrite registrar_lookup_old; [by apply Hkeep|]. by rewrite Hkeep.
Qed.

Lemma random_walk_primeira_visita_witness :
  random_walk_loop (fun _ => 1%nat) grafo4 3 4 128
    (Estado (<[3 := Some 1]> (<[0 := None]> ∅)) 0 None 0 0)
  = Retorno (true, <[3 := Some 2]> (<[2 := Some 0]>
                     (<[3 := Some 1]> (<[0 := None]> ∅))), 2) /\
  (<[3 := Some 2]> (<[2 := Some 0]> (<[3 := Some 1]> (<[0 := None]> ∅)))
     : gmap Z (option Z)) !! 0
  = (<[3 := Some 1]> (<[0 := None]> (∅ : gmap Z (option Z)))) !! 0.
Proof.
  assert (random_walk_loop (fun _ => 1%nat) grafo4 3 4 128
            (Estado (<[3 := Some 1]> (<[0 := None]> ∅)) 0 None 0 0)
          = Retorno (true, <[3 := Some 2]> (<[2 := Some 0]>
                             (<[3 := Some 1]> (<[0 := None]> ∅))), 2)) as Hr
    by (vm_compute; reflexivity).
  split; [exact Hr|].
  apply (proj1 (proj2 (random_walk_primeira_visita (fun _ => 1%nat) grafo4 3 4
           (Estado (<[3 := Some 1]> (<[0 := None]> ∅)) 0 None 0 0))
           128%nat true _ 2 Hr) 0).
  - vm_compute. eauto.
  - left. lia.
Defined.

(** ** The predecessor map is a tree rooted at the start vertex *)

Lemma adjacentes_snoc {A : Type} (R : A -> A -> Prop) (l : list A) (a : A) :
  adjacentes R l -> (forall z, last l = Some z -> R z a) ->
  adjacentes R (l ++ [a]).
Proof.
  intros Hl Hlast k x y Hx Hy.
  destruct (decide (S k < length l)%nat) as [Hlt|Hge].
  - rewrite lookup_app_l in Hx by lia. rewrite lookup_app_l in Hy by lia.
    by eapply Hl.
  - assert (S k = length l) as Hk.
    { apply lookup_lt_Some in Hy. rewrite length_app in Hy. simpl in Hy. lia. }
    rewrite lookup_app_l in Hx by lia.
    rewrite lookup_app_r in Hy by lia.
    replace (S k - length l)%nat with 0%nat in Hy by lia.
    injection Hy as <-. apply Hlast.
    rewrite last_lookup, <- Hk. exact Hx.
Qed.

Lemma cadeia_insert_novo (vis : gmap Z (option Z)) (a : Z) (x : option Z)
    (v : Z) (l : list Z) :
  (forall v w, vis !! v = Some (Some w) -> is_Some (vis !! w)) ->
  vis !! a = None ->
  cadeia vis v l -> is_Some (vis !! v) -> cadeia (<[a := x]> vis) v l.
Proof.
  intros Hfech Ha. induction 1 as [v Hv | v w l Hv _ IH]; intros Hkey.
  - apply cadeia_fim. unfold dict_get in *.
    rewrite lookup_insert_ne; [done|]. intros ->. rewrite Ha in Hkey.
    by destruct Hkey.
  - assert (a <> v) as Hne.
    { intros ->. rewrite Ha in Hkey. by destruct Hkey. }
    assert (vis !! v = Some (Some w)) as Hvw.
    { unfold dict_get in Hv. destruct (vis !! v) as [[?|]|]; congruence. }
    eapply cadeia_elo.
    + unfold dict_get. by rewrite lookup_insert_ne, Hvw.
    + apply IH. by eapply Hfech.
Qed.

(** A new key whose predecessor is a key, along an edge, keeps the tree. *)
Lemma arvore_insert_novo (grafo : list (list Z)) (inicio : Z)
    (vis : gmap Z (option Z)) (a u : Z) :
  arvore grafo inicio vis -> vis !! a = None -> is_Some (vis !! u) ->
  aresta grafo u a = true ->
  arvore grafo inicio (<[a := Some u]> vis).
Proof.
  intros [Hraiz Hunica Hfech Haresta Hcadeia] Ha Hu Hedge.
  assert (forall v, is_Some (vis !! v) -> a <> v) as Hfresh.
  { intros v Hv ->. rewrite Ha in Hv. by destruct Hv. }
  split.
  - rewrite lookup_insert_ne; [done|]. apply Hfresh. by rewrite Hraiz.
  - intros v. destruct (decide (a = v)) as [->|Hne].
    + rewrite lookup_insert_eq. discriminate.
    + rewrite lookup_insert_ne by done. apply Hunica.
  - intros v w. destruct (decide (a = v)) as [->|Hne].
    + rewrite lookup_insert_eq. intros [= <-].
      apply lookup_insert_is_Some. right. split; [by apply Hfresh | done].
    + rewrite lookup_insert_ne by done. intros Hvw%Hfech.
      apply lookup_insert_is_Some. right. split; [by apply Hfresh | done].
  - intros v w. destruct (decide (a = v)) as [->|Hne].
    + rewrite lookup_insert_eq. by intros [= <-].
    + rewrite lookup_insert_ne by done. apply Haresta.
  - intros v. destruct (decide (a = v)) as [->|Hne].
    + intros _. destruct (Hcadeia u Hu) as (l & Hl & Hlast).
      exists (v :: l). split.
      * eapply cadeia_elo.
        -- unfold dict_get. by rewrite lookup_insert_eq.
        -- by apply cadeia_insert_novo.
      * destruct l as [|y l]; [discriminate|]. by rewrite last_cons_cons.
    + rewrite lookup_insert_ne by done. intros Hv.
      destruct (Hcadeia v Hv) as (l & Hl & Hlast).
      exists l. split; [by apply cadeia_insert_novo | done].
Qed.

Lemma arvore_inicial (grafo : list (list Z)) (inicio : Z) :
  arvore grafo inicio (<[inicio := None]> ∅).
Proof.
  split.
  - apply lookup_insert_eq.
  - intros v. destruct (decide (inicio = v)) as [->|Hne]; [done|].
    by rewrite lookup_insert_ne, lookup_empty.
  - intros v w. destruct (decide (inicio = v)) as [->|Hne].
    + by rewrite lookup_insert_eq.
    + by rewrite lookup_insert_ne, lookup_empty.
  - intros v w. destruct (decide (inicio = v)) as [->|Hne].
    + by rewrite lookup_insert_eq.
    + by rewrite lookup_insert_ne, lookup_empty.
  - intros v. destruct (decide (inicio = v)) as [->|Hne].
    + intros _. exists [v]. split; [|done].
      apply cadeia_fim. unfold dict_get. by rewrite lookup_insert_eq.
    + rewrite lookup_insert_ne, lookup_empty by done. by intros [? ?].
Qed.

(** The path rebuilt from a key of a tree: it starts at the root, ends at
    the key, and walks along edges. *)
Lemma cadeia_caminho (grafo : list (list Z)) (inicio : Z)
    (vis : gmap Z (option Z)) (v : Z) (l : list Z) :
  arvore grafo inicio vis -> cadeia vis v l -> is_Some (vis !! v) ->
  head (rev l) = Some inicio /\ last (rev l) = Some v /\
  adjacentes (fun x y => aresta grafo x y = true) (rev l).
Proof.
  intros Harv. induction 1 as [v Hv | v w l Hv _ IH]; intros Hkey; simpl.
  - assert (v = inicio) as ->.
    { apply (arv_unica _ _ _ Harv). unfold dict_get in Hv.
      destruct Hkey as [x Hx]. rewrite Hx in Hv |- *. by subst. }
    repeat split; try done; intros k x y _ Hy; destruct k; discriminate.
  - assert (vis !! v = Some (Some w)) as Hvw.
    { unfold dict_get in Hv. destruct (vis !! v) as [[?|]|]; congruence. }
    destruct IH as (Hhead & Hlast & Hadj);
      [by eapply (arv_fechada _ _ _ Harv)|].
    split; [|split].
    + destruct (rev l) as [|y r]; [discriminate | done].
    + apply last_snoc.
    + apply adjacentes_snoc; [done|]. intros z Hz.
      rewrite Hlast in Hz. injection Hz as <-.
      by eapply (arv_aresta _ _ _ Harv).
Qed.

Section WalkTree.
Variables (rng : fonte) (grafo : list (list Z)) (vertice_final n : Z).
Variables (inicio i0 : Z) (k0 : nat).

Local Abbreviation s0 := (Estado ∅ inicio None i0 k0).
Local Abbreviation passo' := (passo rng grafo vertice_final n).
Local Abbreviation alcancavel' := (alcancavel rng grafo vertice_final n).

(** Recording the current vertex (lines 83-84) in the empty map of the first
    iteration, or in a tree when the vertex was reached along an edge from a
    recorded vertex, gives a tree that has the current vertex as a key. *)
Lemma registrar_de_arvore (s : estado) :
  s = s0 \/
  (arvore grafo inicio (visitados s) /\
   exists u, antecessor s = Some u /\ is_Some (visitados s !! u) /\
             aresta grafo u (atual s) = true) ->
  arvore grafo inicio (registrar (visitados s) (atual s) (antecessor s)) /\
  is_Some (registrar (visitados s) (atual s) (antecessor s) !! atual s).
Proof.
  intros [-> | (Harv & u & Hant & Hu & Hedge)]; simpl.
  - unfold registrar. rewrite lookup_empty. split.
    + apply arvore_inicial.
    + rewrite lookup_insert_eq. eauto.
  - split; [|rewrite registrar_lookup_self; eauto].
    unfold registrar. destruct (visitados s !! atual s) eqn:Ea; [done|].
    rewrite Hant. by apply arvore_insert_novo.
Qed.

(** What holds when the loop test is evaluated after the first iteration:
    the map is a tree and the current vertex was reached along an edge from
    a recorded vertex. *)
Lemma alcancavel_arvore (s : estado) :
  alcancavel' s0 s ->
  s = s0 \/
  (arvore grafo inicio (visitados s) /\
   exists u, antecessor s = Some u /\ is_Some (visitados s !! u) /\
             aresta grafo u (atual s) = true).
Proof.
  induction 1 as [|s s' _ IH Hp]; [by left|]. right.
  destruct (registrar_de_arvore s IH) as [Harv Hkey].
  apply passo_continua in Hp as (_ & row & Hrow & Hin & _ & ->). simpl.
  split; [done|]. exists (atual s). split; [done|]. split; [done|].
  by eapply vizinhos_de_aresta.
Qed.

Lemma registrar_arvore (s : estado) :
  alcancavel' s0 s ->
  arvore grafo inicio (registrar (visitados s) (atual s) (antecessor s)) /\
  is_Some (registrar (visitados s) (atual s) (antecessor s) !! atual s).
Proof. intros Hs%alcancavel_arvore. by apply registrar_de_arvore. Qed.

(** While the target differs from the start vertex it is never the current
    vertex, hence never recorded before the walk returns. *)
Lemma alvo_ausente (s : estado) :
  inicio <> vertice_final -> alcancavel' s0 s ->
  visitados s !! vertice_final = None /\ atual s <> vertice_final.
Proof.
  intros Hne. induction 1 as [|s s' _ [IHv IHa] Hp]; [done|].
  apply passo_continua in Hp as (_ & row & _ & _ & Hnf & ->). simpl.
  split; [|done]. by rewrite registrar_lookup_ne.
Qed.

(** The map a walk between distinct vertices returns is a tree; when the
    walk found the target, the target is one of its keys. *)
Lemma random_walk_loop_arvore (fuel : nat) (found : bool)
    (m : gmap Z (option Z)) (j : Z) :
  inicio <> vertice_final -> i0 < 2 * n ^ 3 ->
  random_walk_loop rng grafo vertice_final n fuel s0 = Retorno (found, m, j) ->
  arvore grafo inicio m /\ (found = true -> is_Some (m !! vertice_final)).
Proof.
  intros Hne Hcap (s & Hs & Hp)%random_walk_loop_retorno.
  destruct (registrar_arvore s Hs) as [Harv Hkey].
  destruct (alvo_ausente s Hne Hs) as [Hvf Ha].
  destruct found.
  - apply passo_encontrado in Hp as (_ & _ & -> & row & Hrow & Hin). split.
    + apply arvore_insert_novo; try done.
      * by rewrite registrar_lookup_ne.
      * by eapply vizinhos_de_aresta.
    + intros _. rewrite lookup_insert_eq. eauto.
  - split; [|discriminate].
    apply passo_nao_encontrado in Hp as [_ [[Hge ->] | (_ & -> & _)]]; [|done].
    apply alcancavel_arvore in Hs as [-> | [Ht _]]; [simpl in Hge; lia | done].
Qed.

(** On a matrix whose rows are no longer than the list of rows, a walk that
    starts at a valid index only visits valid indices. *)
Lemma alcancavel_valido (s1 s : estado) :
  Forall (fun row => (length row <= length grafo)%nat) grafo ->
  indice_valido grafo (atual s1) ->
  alcancavel' s1 s -> indice_valido grafo (atual s).
Proof.
  intros Hsq H1. induction 1 as [|s s' _ IH Hp]; [done|].
  apply passo_continua in Hp as (_ & row & Hrow & Hin & _ & _).
  apply vizinhos_de_bound in Hin.
  rewrite py_index_nonneg in Hrow by (unfold indice_valido in IH; lia).
  rewrite Forall_forall in Hsq.
  assert (length row <= length grafo)%nat.
  { apply Hsq. apply list_elem_of_lookup. eauto. }
  unfold indice_valido. lia.
Qed.
End WalkTree.

(** At the first loop test of the walk from 0 to 3 on the 4-cycle the map is
    the empty dict [existe_caminho] passed in: no key is mapped to None yet. *)
Lemma mapa_inicial_contraexemplo :
  0 <> 3 /\
  alcancavel (fun _ => 1%nat) grafo4 3 4 (Estado ∅ 0 None 0 0)
             (Estado ∅ 0 None 0 0) /\
  ~ (exists v : Z, visitados (Estado ∅ 0 None 0 0) !! v = Some None).
Proof.
  split; [lia|]. split; [constructor|].
  intros [v Hv]. simpl in Hv. rewrite lookup_empty in Hv. discriminate.
Qed.

(** C9.  In a walk from [start] to another vertex, on a graph with at least
    one vertex, started as [existe_caminho] starts it: at the first loop test
    the map is still empty; once the first statement of the loop has recorded
    the start vertex, every map the walk holds (at each loop test after the
    first, after the recording step of each iteration, and when it returns)
    is a tree rooted at [start]: stored predecessors are keys, [start] is
    the only key mapped to None, and from every key the predecessor links
    reach None, through [start], in finitely many steps. *)
Theorem random_walk_mapa_arvore (rng : fonte) (grafo : list (list Z))
    (start target n : Z) :
  start <> target -> 0 < n ->
  (forall s : estado,
     alcancavel rng grafo target n (Estado ∅ start None 0 0) s ->
     (s = Estado ∅ start None 0 0 \/ arvore grafo start (visitados s)) /\
     (i s < 2 * n ^ 3 ->
      arvore grafo start (registrar (visitados s) (atual s) (antecessor s)))) /\
  (forall (found : bool) (m : gmap Z (option Z)) (j : Z),
     random_walk rng ∅ grafo start None target 0 n = Retorno (found, m, j) ->
     arvore grafo start m) /\
  (forall m : gmap Z (option Z), arvore grafo start m ->
     (forall v w, m !! v = Some (Some w) -> is_Some (m !! w)) /\
     (forall v, m !! v = Some None <-> v = start) /\
     (forall v, is_Some (m !! v) ->
        exists (fuel : nat) (l : list Z),
          reconstruir_loop fuel m (Some v) [] = Some l /\ last l = Some start)).
Proof.
  intros Hne Hn. split; [|split].
  - intros s Hs. split.
    + apply alcancavel_arvore in Hs as [-> | [Harv _]]; [by left | by right].
    + intros _. by apply (registrar_arvore _ _ _ _ _ _ _ _ Hs).
  - intros found m j Hr. unfold random_walk in Hr.
    eapply random_walk_loop_arvore in Hr as [Harv _]; [done | done | nia].
  - intros m Harv. split; [|split].
    + apply (arv_fechada _ _ _ Harv).
    + intros v. split.
      * apply (arv_unica _ _ _ Harv).
      * intros ->. apply (arv_raiz _ _ _ Harv).
    + intros v Hv. destruct (arv_cadeia _ _ _ Harv v Hv) as (l & Hl & Hlast).
      exists (length l), l. split; [|done].
      by rewrite (reconstruir_loop_cadeia _ _ _ Hl).
Qed.

Lemma random_walk_mapa_arvore_witness :
  arvore grafo4 0 (<[3 := Some 2]> (<[2 := Some 0]> (<[0 := None]> ∅))).
Proof.
  apply (proj1 (proj2 (random_walk_mapa_arvore (fun _ => 1%nat) grafo4 0 3 4
           ltac:(lia) ltac:(lia))) true _ 2).
  vm_compute. reflexivity.
Defined.

(** ** Correctness of the returned path *)

(** C1.  For valid distinct [start] and [target] and any random source, a
    result of [existe_caminho] with found = True carries a path that begins
    at [start], ends at [target], and whose consecutive vertices are joined
    by an edge, [grafo[path[k]][path[k+1]] == 1]. *)
Theorem existe_caminho_caminho_valido (fuel : nat) (rng : fonte)
    (grafo : list (list Z)) (start target : Z) (caminho : list Z) (it : Z) :
  indice_valido grafo start -> indice_valido grafo target ->
  start <> target ->
  existe_caminho fuel rng grafo start target = Retorno (true, caminho, it) ->
  head caminho = Some start /\ last caminho = Some target /\
  (forall (k : nat) (u v : Z),
     caminho !! k = Some u -> caminho !! S k = Some v ->
     aresta grafo u v = true).
Proof.
  intros Hs Ht Hne. rewrite existe_caminho_valido by done.
  destruct (random_walk rng ∅ grafo start None target 0
              (Z.of_nat (length grafo))) as [[[found m] j]| |] eqn:Ew;
    try discriminate.
  destruct found; [|discriminate].
  destruct (reconstruir_caminho fuel m target) as [p|] eqn:Ep; [|discriminate].
  intros [= -> ->]. unfold random_walk in Ew.
  apply random_walk_loop_arvore in Ew as [Harv Hkey];
    [|done|by eapply cap_positivo].
  apply reconstruir_caminho_some in Ep as (l & Hl & _ & ->).
  by eapply cadeia_caminho; [| |apply Hkey].
Qed.

Lemma existe_caminho_caminho_valido_witness :
  head [0; 2; 3] = Some 0 /\ last [0; 2; 3] = Some 3 /\
  (forall (k : nat) (u v : Z),
     [0; 2; 3] !! k = Some u -> [0; 2; 3] !! S k = Some v ->
     aresta grafo4 u v = true).
Proof.
  apply (existe_caminho_caminho_valido 10 (fun _ => 1%nat) grafo4 0 3 [0; 2; 3] 2).
  - unfold indice_valido. simpl. lia.
  - unfold indice_valido. simpl. lia.
  - lia.
  - vm_compute. reflexivity.
Defined.

(** ** Termination *)

Lemma quadrada_linhas (grafo : list (list Z)) :
  quadrada grafo -> Forall (fun row => (length row <= length grafo)%nat) grafo.
Proof.
  unfold quadrada. intros H. eapply Forall_impl; [exact H|].
  intros row Hrow. simpl in Hrow. lia.
Qed.

(** On a square matrix the walk from a valid vertex returns: no IndexError,
    and the budget [2*n**3 - i] is enough. *)
Lemma random_walk_retorna (rng : fonte) (vis : gmap Z (option Z))
    (grafo : list (list Z)) (atual0 : Z) (antecessor0 : option Z)
    (vertice_final i0 n : Z) :
  quadrada grafo -> indice_valido grafo atual0 ->
  exists r, random_walk rng vis grafo atual0 antecessor0 vertice_final i0 n
            = Retorno r.
Proof.
  intros Hsq Hv. unfold random_walk.
  destruct (random_walk_loop rng grafo vertice_final n
              (Z.to_nat (2 * n ^ 3 - i0))
              (Estado vis atual0 antecessor0 i0 0)) as [r| |] eqn:Er.
  - by exists r.
  - apply random_walk_loop_erro in Er as (s' & Hs' & Hnone).
    eapply (alcancavel_valido rng grafo vertice_final n) in Hs';
      [|by apply quadrada_linhas|done].
    destruct (py_index_valido grafo (atual s') Hs') as [row Hrow]. congruence.
  - by apply random_walk_loop_fuel in Er.
Qed.

(** X8.  For distinct valid vertices of a square matrix a query returns: the
    walk stops within the cap and the reconstruction stops after as many
    steps as the path is long; a larger budget gives the same result. *)
Theorem existe_caminho_termina (rng : fonte) (grafo : list (list Z))
    (start target : Z) :
  quadrada grafo -> indice_valido grafo start -> indice_valido grafo target ->
  start <> target ->
  exists (fuel : nat) (r : bool * list Z * Z),
    forall fuel' : nat, (fuel <= fuel')%nat ->
      existe_caminho fuel' rng grafo start target = Retorno r.
Proof.
  intros Hsq Hs Ht Hne.
  destruct (random_walk_retorna rng ∅ grafo start None target 0
              (Z.of_nat (length grafo)) Hsq Hs) as [[[found m] j] Hr].
  destruct found.
  - pose proof Hr as Hw. unfold random_walk in Hw.
    apply random_walk_loop_arvore in Hw as [Harv Hkey];
      [|done|by eapply cap_positivo].
    destruct (arv_cadeia _ _ _ Harv target (Hkey eq_refl)) as (l & Hl & _).
    exists (length l), (true, rev l, j). intros fuel' Hf.
    rewrite existe_caminho_valido, Hr by done.
    by rewrite (reconstruir_caminho_cadeia _ _ _ _ Hl Hf).
  - exists 0%nat, (false, [], j). intros fuel' _.
    by rewrite existe_caminho_valido, Hr.
Qed.

Lemma existe_caminho_termina_witness :
  exists (fuel : nat) (r : bool * list Z * Z),
    forall fuel' : nat, (fuel <= fuel')%nat ->
      existe_caminho fuel' (fun _ => 1%nat) grafo4 0 3 = Retorno r.
Proof.
  apply (existe_caminho_termina (fun _ => 1%nat) grafo4 0 3).
  - unfold quadrada, grafo4. repeat constructor.
  - unfold indice_valido. simpl. lia.
  - unfold indice_valido. simpl. lia.
  - lia.
Defined.

(** ** Queries from a vertex to itself *)

(** A walk from [v] back to [v] that returns found has overwritten the entry
    of [v]: every key of the returned map then has a predecessor that is a
    key, and the loop of [reconstruir_caminho] never meets None. *)
Lemma random_walk_mesmo_vertice_ciclo (rng : fonte) (grafo : list (list Z))
    (v n : Z) (m : gmap Z (option Z)) (j : Z) :
  random_walk rng ∅ grafo v None v 0 n = Retorno (true, m, j) ->
  forall fuel : nat, reconstruir_caminho fuel m v = None.
Proof.
  unfold random_walk. intros (s & Hs & Hp)%random_walk_loop_retorno fuel.
  destruct (registrar_arvore _ _ _ _ _ _ _ _ Hs) as [Harv Hkey].
  apply passo_encontrado in Hp as (_ & _ & -> & _).
  unfold reconstruir_caminho. rewrite reconstruir_loop_ciclo; [done| |].
  - intros x Hx. destruct (decide (v = x)) as [->|Hne].
    + exists (atual s). rewrite lookup_insert_eq. split; [done|].
      apply lookup_insert_is_Some'. by right.
    + rewrite lookup_insert_ne in Hx |- * by done.
      destruct Hx as [[w|] Hw].
      * exists w. split; [done|]. apply lookup_insert_is_Some'. right.
        by eapply (arv_fechada _ _ _ Harv).
      * by apply (arv_unica _ _ _ Harv) in Hw.
  - rewrite lookup_insert_eq. eauto.
Qed.

(** C3.  The query from vertex 0 to vertex 0 on the graph with the single
    edge 0-1 does not run to completion: whatever the random source, the walk
    goes to 1 and back, returns found after overwriting the entry of 0, and
    the loop of [reconstruir_caminho] is still running after any number of
    steps. *)
Theorem consulta_ciclica_nao_termina :
  forall (fuel : nat) (rng : fonte),
    existe_caminho fuel rng grafo2 0 0 = SemCombustivel.
Proof.
  intros fuel rng.
  assert (exists m, random_walk rng ∅ grafo2 0 None 0 0 2 = Retorno (true, m, 2))
    as [m Hm].
  { eexists. unfold random_walk.
    change (Z.to_nat (2 * 2 ^ 3 - 0)) with 16%nat.
    simpl. unfold passo. simpl. unfold random_choice. simpl.
    unfold passo. simpl. unfold random_choice. simpl. reflexivity. }
  rewrite existe_caminho_valido by (unfold indice_valido; simpl; lia).
  change (Z.of_nat (length grafo2)) with 2. rewrite Hm.
  by rewrite (random_walk_mesmo_vertice_ciclo _ _ _ _ _ _ Hm).
Qed.

Lemma alcancavel_inicio_ou_depois (rng : fonte) (grafo : list (list Z))
    (vertice_final n : Z) (s1 s : estado) :
  alcancavel rng grafo vertice_final n s1 s -> s = s1 \/ i s1 < i s.
Proof.
  induction 1 as [|s s' Hs _ Hp]; [by left|]. right.
  apply (alcancavel_contador rng grafo vertice_final n) in Hs as [Hle _].
  apply passo_continua in Hp as (_ & row & _ & _ & _ & ->). simpl. lia.
Qed.

(** The query from the only vertex of the graph without edges to itself
    returns not found: there is no special case for [start == target]. *)
Lemma sem_atalho_contraexemplo :
  indice_valido grafo1 0 /\
  ~ (exists fuel : nat,
       existe_caminho fuel (fun _ => 0%nat) grafo1 0 0 = Retorno (true, [0], 0)).
Proof.
  split.
  - unfold indice_valido. simpl. lia.
  - intros [fuel H]. vm_compute in H. discriminate.
Qed.

(** C4.  A query with [start == target == v], [v] valid, is
    answered by the walk like any other query.  When the row of [v] has no
    entry equal to 1 the result is [(False, [], 0)].  Whatever result is
    returned, not found comes with the empty path, and zero iterations occur
    only in that dead end: found = True with zero iterations is never
    returned. *)
Theorem consulta_mesmo_vertice (fuel : nat) (rng : fonte)
    (grafo : list (list Z)) (v : Z) (row : list Z) :
  indice_valido grafo v -> py_index grafo v = Some row ->
  ((forall idx : nat, row !! idx <> Some 1) ->
   existe_caminho fuel rng grafo v v = Retorno (false, [], 0)) /\
  (forall (found : bool) (caminho : list Z) (it : Z),
     existe_caminho fuel rng grafo v v = Retorno (found, caminho, it) ->
     (found = false -> caminho = []) /\
     (it = 0 -> found = false /\ forall idx : nat, row !! idx <> Some 1)).
Proof.
  intros Hv Hrow. pose proof (cap_positivo grafo v Hv) as Hcap. split.
  - intros Hno. rewrite existe_caminho_valido by done. unfold random_walk.
    by erewrite random_walk_loop_beco; [reflexivity | | exact Hrow | exact Hno].
  - intros found caminho it. rewrite existe_caminho_valido by done.
    destruct (random_walk rng ∅ grafo v None v 0 (Z.of_nat (length grafo)))
      as [[[found' m] j]| |] eqn:Ew; try discriminate.
    destruct found'.
    + by rewrite (random_walk_mesmo_vertice_ciclo _ _ _ _ _ _ Ew).
    + intros [= <- <- <-]. split; [done|]. intros ->. split; [done|].
      unfold random_walk in Ew.
      apply random_walk_loop_retorno in Ew as (s & Hs & Hp).
      apply passo_nao_encontrado in Hp
        as [Hj [[Hge _] | (_ & _ & row' & Hrow' & Hvazio)]].
      * lia.
      * apply alcancavel_inicio_ou_depois in Hs as [-> | Hlt];
          [|simpl in Hlt; lia].
        simpl in Hrow'. rewrite Hrow in Hrow'. injection Hrow' as <-.
        by apply vizinhos_de_vazio.
Qed.

Lemma consulta_mesmo_vertice_witness :
  existe_caminho 3 (fun _ => 0%nat) grafo5 4 4 = Retorno (false, [], 0).
Proof.
  apply (proj1 (consulta_mesmo_vertice 3 (fun _ => 0%nat) grafo5 4
                  [0; 0; 0; 0; 0] ltac:(unfold indice_valido; simpl; lia)
                  eq_refl)).
  intros idx. do 5 (destruct idx as [|idx]; [discriminate|]). discriminate.
Defined.

(** ** More about chains of predecessor links *)

Lemma rev_reverse_eq {A : Type} (l : list A) : rev l = reverse l.
Proof. unfold reverse. apply List.rev_alt. Qed.

Lemma cadeia_elem (vis : gmap Z (option Z)) (v : Z) (l : list Z) :
  cadeia vis v l ->
  forall x, x ∈ l -> exists l', cadeia vis x l' /\ (length l' <= length l)%nat.
Proof.
  induction 1 as [v Hv | v w l Hv Hl IH]; intros x Hx.
  - apply list_elem_of_singleton in Hx as ->. exists [v].
    split; [by constructor | done].
  - apply elem_of_cons in Hx as [-> | Hx].
    + exists (v :: l). split; [by eapply cadeia_elo | done].
    + destruct (IH x Hx) as (l' & Hl' & Hlen). exists l'.
      split; [done | simpl; lia].
Qed.

(** Following links never comes back to a vertex already met. *)
Lemma cadeia_NoDup (vis : gmap Z (option Z)) (v : Z) (l : list Z) :
  cadeia vis v l -> NoDup l.
Proof.
  induction 1 as [v Hv | v w l Hv Hl IH].
  - apply NoDup_singleton.
  - apply NoDup_cons. split; [|done]. intros Hin.
    destruct (cadeia_elem _ _ _ Hl v Hin) as (l' & Hl' & Hlen).
    assert (l' = v :: l) as ->
      by (eapply cadeia_funcional; [exact Hl' | by eapply cadeia_elo]).
    simpl in Hlen. lia.
Qed.

(** All the vertices of a chain but the last have a stored predecessor. *)
Lemma cadeia_chaves (vis : gmap Z (option Z)) (v : Z) (l : list Z) :
  cadeia vis v l ->
  exists l0 z, l = l0 ++ [z] /\ forall x, x ∈ l0 -> is_Some (vis !! x).
Proof.
  induction 1 as [v Hv | v w l Hv Hl (l0 & z & -> & Hkeys)].
  - exists [], v. split; [done|]. intros x Hx. inversion Hx.
  - exists (v :: l0), z. split; [done|]. intros x [-> | Hx]%elem_of_cons.
    + unfold dict_get in Hv. destruct (vis !! v); [eauto | discriminate].
    + by apply Hkeys.
Qed.

Lemma cadeia_comprimento (vis : gmap Z (option Z)) (v : Z) (l : list Z) :
  cadeia vis v l -> (length l <= S (size vis))%nat.
Proof.
  intros Hl. pose proof (cadeia_NoDup _ _ _ Hl) as Hnd.
  destruct (cadeia_chaves _ _ _ Hl) as (l0 & z & -> & Hkeys).
  apply NoDup_app in Hnd as (Hnd0 & _ & _).
  assert (l0 ⊆+ (map_to_list vis).*1) as Hsub.
  { apply NoDup_submseteq; [done|]. intros x [y Hy]%Hkeys.
    apply list_elem_of_fmap. exists (x, y). split; [done|].
    by apply elem_of_map_to_list. }
  apply submseteq_length in Hsub.
  rewrite length_fmap, length_map_to_list in Hsub.
  rewrite length_app. simpl. lia.
Qed.

(** In a map closed under predecessors, a chain from a key stays in keys. *)
Lemma cadeia_em_chaves (vis : gmap Z (option Z)) (v : Z) (l : list Z) :
  (forall v w, vis !! v = Some (Some w) -> is_Some (vis !! w)) ->
  cadeia vis v l -> is_Some (vis !! v) ->
  forall x, x ∈ l -> is_Some (vis !! x).
Proof.
  intros Hfech. induction 1 as [v Hv | v w l Hv Hl IH]; intros Hkey x Hx.
  - by apply list_elem_of_singleton in Hx as ->.
  - apply elem_of_cons in Hx as [-> | Hx]; [done|]. apply IH; [|done].
    apply (Hfech v). unfold dict_get in Hv.
    destruct (vis !! v) as [[?|]|]; congruence.
Qed.

(** X1.  Whatever the map, a list returned by [reconstruir_caminho] ends at
    the requested vertex, repeats no vertex and has at most one element more
    than the map has keys; so the loop stops within [len(visitados) + 1]
    steps or not at all. *)
Theorem reconstruir_caminho_simples (vis : gmap Z (option Z)) (target : Z) :
  (forall (fuel : nat) (p : list Z),
     reconstruir_caminho fuel vis target = Some p ->
     NoDup p /\ last p = Some target /\ (length p <= S (size vis))%nat /\
     reconstruir_caminho (S (size vis)) vis target = Some p) /\
  (reconstruir_caminho (S (size vis)) vis target = None ->
   forall fuel : nat, reconstruir_caminho fuel vis target = None).
Proof.
  assert (forall fuel p, reconstruir_caminho fuel vis target = Some p ->
     NoDup p /\ last p = Some target /\ (length p <= S (size vis))%nat /\
     reconstruir_caminho (S (size vis)) vis target = Some p) as Hsome.
  { intros fuel p (l & Hl & _ & ->)%reconstruir_caminho_some.
    pose proof (cadeia_comprimento _ _ _ Hl) as Hlen.
    split; [|split; [|split]].
    - rewrite rev_reverse_eq, reverse_Permutation. by eapply cadeia_NoDup.
    - rewrite rev_reverse_eq, last_reverse. by eapply cadeia_head.
    - by rewrite length_rev.
    - by apply reconstruir_caminho_cadeia. }
  split; [exact Hsome|].
  intros Hnone fuel.
  destruct (reconstruir_caminho fuel vis target) as [p|] eqn:Ep; [|done].
  apply Hsome in Ep as (_ & _ & _ & Ep). congruence.
Qed.

Lemma reconstruir_caminho_simples_witness :
  reconstruir_caminho 7 (<[1 := Some 0]> (<[0 := Some 1]> ∅)) 0 = None.
Proof.
  apply (proj2 (reconstruir_caminho_simples (<[1 := Some 0]> (<[0 := Some 1]> ∅)) 0)).
  vm_compute. reflexivity.
Defined.

(** ** The keys of the map and the depth of the tree *)

Lemma registrar_is_Some (vis : gmap Z (option Z)) (a v : Z) (ant : option Z) :
  is_Some (registrar vis a ant !! v) -> v = a \/ is_Some (vis !! v).
Proof.
  unfold registrar. destruct (vis !! a); [by right|].
  intros [<- | [_ H]]%lookup_insert_is_Some; [by left | by right].
Qed.

(** The current vertex is never negative, and the recorded vertices were all
    used to index the matrix: they are valid indices. *)
Lemma alcancavel_chaves_validas (rng : fonte) (grafo : list (list Z))
    (vertice_final n inicio i0 : Z) (k0 : nat) (s : estado) :
  0 <= inicio ->
  alcancavel rng grafo vertice_final n (Estado ∅ inicio None i0 k0) s ->
  0 <= atual s /\
  forall v, is_Some (visitados s !! v) -> indice_valido grafo v.
Proof.
  intros Hpos. induction 1 as [|s s' _ [IHa IHk] Hp]; simpl.
  - split; [done|]. intros v. rewrite lookup_empty. by intros [? ?].
  - apply passo_continua in Hp as (_ & row & Hrow & Hin & _ & ->). simpl.
    split; [apply vizinhos_de_bound in Hin; lia|].
    intros v [-> | Hv]%registrar_is_Some; [|by apply IHk].
    rewrite py_index_nonneg in Hrow by done.
    apply lookup_lt_Some in Hrow. unfold indice_valido. lia.
Qed.

Lemma insert_profundidade (grafo : list (list Z)) (inicio : Z)
    (vis : gmap Z (option Z)) (a u : Z) (k : nat) :
  arvore grafo inicio vis -> vis !! a = None -> is_Some (vis !! u) ->
  profundidade_ate vis k -> profundidade_ate (<[a := Some u]> vis) (S k).
Proof.
  intros Harv Ha Hu Hk v l Hv Hl.
  assert (forall x, is_Some (vis !! x) ->
    exists l0, cadeia (<[a := Some u]> vis) x l0 /\ (length l0 <= k)%nat)
    as Hold.
  { intros x Hx. destruct (arv_cadeia _ _ _ Harv x Hx) as (l0 & Hl0 & _).
    exists l0. split; [|by eapply Hk].
    apply cadeia_insert_novo; try done. apply (arv_fechada _ _ _ Harv). }
  destruct (decide (a = v)) as [->|Hne].
  - destruct (Hold u Hu) as (l0 & Hl0 & Hlen).
    assert (l = v :: l0) as ->.
    { eapply cadeia_funcional; [exact Hl|]. eapply cadeia_elo; [|exact Hl0].
      unfold dict_get. by rewrite lookup_insert_eq. }
    simpl. lia.
  - rewrite lookup_insert_ne in Hv by done.
    destruct (Hold v Hv) as (l0 & Hl0 & Hlen).
    assert (l = l0) as -> by (eapply cadeia_funcional; eauto). lia.
Qed.

(** Recording the current vertex adds at most one level to the tree. *)
Lemma registrar_profundidade (grafo : list (list Z)) (inicio : Z)
    (vis : gmap Z (option Z)) (a : Z) (ant : option Z) (k : nat) :
  (vis = ∅ /\ ant = None) \/
  (arvore grafo inicio vis /\ exists u, ant = Some u /\ is_Some (vis !! u)) ->
  profundidade_ate vis k -> profundidade_ate (registrar vis a ant) (S k).
Proof.
  intros Hinv Hk. unfold registrar. destruct (vis !! a) eqn:Ea.
  - intros v l Hv Hl. specialize (Hk v l Hv Hl). lia.
  - destruct Hinv as [[-> ->] | (Harv & u & -> & Hu)].
    + intros v l [<- | [_ Hv]]%lookup_insert_is_Some Hl.
      * assert (l = [a]) as ->; [|simpl; lia].
        eapply cadeia_funcional; [exact Hl|]. apply cadeia_fim.
        unfold dict_get. by rewrite lookup_insert_eq.
      * rewrite lookup_empty in Hv. by destruct Hv.
    + by eapply insert_profundidade.
Qed.

(** After [k] neighbour choices no recorded vertex is deeper than [k] in the
    tree; recording the current vertex allows one more. *)
Lemma alcancavel_profundidade (rng : fonte) (grafo : list (list Z))
    (vertice_final n inicio i0 : Z) (s : estado) :
  alcancavel rng grafo vertice_final n (Estado ∅ inicio None i0 0) s ->
  profundidade_ate (visitados s) (sorteios s) /\
  profundidade_ate (registrar (visitados s) (atual s) (antecessor s))
                   (S (sorteios s)).
Proof.
  assert (forall s : estado,
    alcancavel rng grafo vertice_final n (Estado ∅ inicio None i0 0) s ->
    (visitados s = ∅ /\ antecessor s = None) \/
    (arvore grafo inicio (visitados s) /\
     exists u, antecessor s = Some u /\ is_Some (visitados s !! u))) as Hinv.
  { intros s1 [-> | (Harv & u & Hant & Hu & _)]%alcancavel_arvore;
      [by left | right; eauto]. }
  intros Hs.
  assert (profundidade_ate (visitados s) (sorteios s)) as Hk.
  { induction Hs as [|s s' Hs IH Hp]; simpl.
    - intros v l. rewrite lookup_empty. by intros [? ?].
    - pose proof (Hinv s Hs) as Hi.
      apply passo_continua in Hp as (_ & row & _ & _ & _ & ->). simpl.
      by eapply registrar_profundidade. }
  split; [done|]. eapply registrar_profundidade; [by apply Hinv | done].
Qed.

Lemma NoDup_intervalo (l : list Z) (n : nat) :
  NoDup l -> (forall x, x ∈ l -> 0 <= x < Z.of_nat n) -> (length l <= n)%nat.
Proof.
  intros Hnd Hin.
  assert (l ⊆+ Z.of_nat <$> seq 0 n) as Hsub.
  { apply NoDup_submseteq; [done|]. intros x Hx%Hin.
    apply list_elem_of_fmap. exists (Z.to_nat x). split; [lia|].
    apply elem_of_seq. lia. }
  apply submseteq_length in Hsub. by rewrite length_fmap, length_seq in Hsub.
Qed.

Lemma arvore_alcanca (grafo : list (list Z)) (inicio : Z)
    (vis : gmap Z (option Z)) (v : Z) (l : list Z) :
  arvore grafo inicio vis -> cadeia vis v l -> is_Some (vis !! v) ->
  alcanca grafo inicio v.
Proof.
  intros Harv. induction 1 as [v Hv | v w l Hv _ IH]; intros Hkey.
  - assert (v = inicio) as ->; [|constructor].
    apply (arv_unica _ _ _ Harv). unfold dict_get in Hv.
    destruct Hkey as [x Hx]. rewrite Hx in Hv |- *. by subst.
  - assert (vis !! v = Some (Some w)) as Hvw.
    { unfold dict_get in Hv. destruct (vis !! v) as [[?|]|]; congruence. }
    eapply alcanca_passo.
    + apply IH. by eapply (arv_fechada _ _ _ Harv).
    + by eapply (arv_aresta _ _ _ Harv).
Qed.

(** What is known of the map of a walk that found a target other than its
    start. *)
Lemma random_walk_encontrado_mapa (rng : fonte) (grafo : list (list Z))
    (start target n : Z) (m : gmap Z (option Z)) (j : Z) :
  0 <= start -> indice_valido grafo target -> start <> target ->
  random_walk rng ∅ grafo start None target 0 n = Retorno (true, m, j) ->
  arvore grafo start m /\ is_Some (m !! target) /\
  (forall v, is_Some (m !! v) -> indice_valido grafo v) /\
  profundidade_ate m (S (Z.to_nat j)) /\ 0 < j <= 2 * n ^ 3.
Proof.
  intros Hs Ht Hne Hr. unfold random_walk in Hr.
  pose proof Hr as (s & Halc & Hp)%random_walk_loop_retorno.
  pose proof Hp as (Hi & -> & -> & row & Hrow & Hin)%passo_encontrado.
  pose proof (alcancavel_contador _ _ _ _ _ _ Halc) as (Hle & Hk & _ & _).
  simpl in Hle, Hk.
  destruct (registrar_arvore _ _ _ _ _ _ _ _ Halc) as [Harv Hkey].
  destruct (alvo_ausente _ _ _ _ _ _ _ _ Hne Halc) as [Hvf Ha].
  destruct (alcancavel_chaves_validas _ _ _ _ _ _ _ _ Hs Halc) as [Hpos Hval].
  destruct (alcancavel_profundidade _ _ _ _ _ _ _ Halc) as [_ Hprof].
  assert (registrar (visitados s) (atual s) (antecessor s) !! target = None)
    as Hfresh by by rewrite registrar_lookup_ne.
  split; [|split; [|split; [|split]]].
  - apply arvore_insert_novo; try done. by eapply vizinhos_de_aresta.
  - rewrite lookup_insert_eq. eauto.
  - intros v [<- | [_ [-> | Hv]%registrar_is_Some]]%lookup_insert_is_Some;
      [done| |by apply Hval].
    rewrite py_index_nonneg in Hrow by done.
    apply lookup_lt_Some in Hrow. unfold indice_valido. lia.
  - replace (Z.to_nat (i s + 1)) with (S (sorteios s)) by lia.
    by eapply insert_profundidade.
  - lia.
Qed.

(** What [existe_caminho] returned with found = True came from a walk
    between distinct valid vertices. *)
Lemma existe_caminho_encontrado_inv (fuel : nat) (rng : fonte)
    (grafo : list (list Z)) (start target : Z) (caminho : list Z) (it : Z) :
  existe_caminho fuel rng grafo start target = Retorno (true, caminho, it) ->
  indice_valido grafo start /\ indice_valido grafo target /\
  start <> target /\
  exists (m : gmap Z (option Z)) (l : list Z),
    random_walk rng ∅ grafo start None target 0 (Z.of_nat (length grafo))
      = Retorno (true, m, it) /\
    cadeia m target l /\ caminho = rev l.
Proof.
  unfold existe_caminho.
  destruct ((start <? 0) || (start >=? Z.of_nat (length grafo))
            || (target <? 0) || (target >=? Z.of_nat (length grafo))) eqn:E;
    [discriminate|].
  repeat (apply orb_false_elim in E as [E ?]).
  destruct (random_walk rng ∅ grafo start None target 0
              (Z.of_nat (length grafo))) as [[[found m] j]| |] eqn:Ew;
    try discriminate.
  destruct found; [|discriminate].
  destruct (reconstruir_caminho fuel m target) as [p|] eqn:Ep; [|discriminate].
  intros [= -> ->].
  split; [unfold indice_valido; lia|]. split; [unfold indice_valido; lia|].
  split.
  - intros ->. by rewrite (random_walk_mesmo_vertice_ciclo _ _ _ _ _ _ Ew) in Ep.
  - apply reconstruir_caminho_some in Ep as (l & Hl & _ & ->). by exists m, l.
Qed.

(** ** What a found path looks like *)

(** X2.  A path returned with found = True is a simple path: no vertex
    occurs twice, every vertex is a valid index, and it has at least two and
    at most [len(grafo)] vertices. *)
Theorem existe_caminho_caminho_simples (fuel : nat) (rng : fonte)
    (grafo : list (list Z)) (start target : Z) (caminho : list Z) (it : Z) :
  existe_caminho fuel rng grafo start target = Retorno (true, caminho, it) ->
  NoDup caminho /\
  (forall v, v ∈ caminho -> indice_valido grafo v) /\
  (2 <= length caminho <= length grafo)%nat.
Proof.
  intros (Hs & Ht & Hne & m & l & Hw & Hl & ->)%existe_caminho_encontrado_inv.
  destruct (random_walk_encontrado_mapa _ _ _ _ _ _ _ (proj1 Hs) Ht Hne Hw)
    as (Harv & Hkey & Hval & _ & _).
  assert (NoDup (rev l)) as Hnd.
  { rewrite rev_reverse_eq, reverse_Permutation. by eapply cadeia_NoDup. }
  assert (forall v, v ∈ rev l -> indice_valido grafo v) as Hin.
  { intros v Hv. rewrite rev_reverse_eq, elem_of_reverse in Hv.
    apply Hval. eapply cadeia_em_chaves; eauto. apply (arv_fechada _ _ _ Harv). }
  split; [done|]. split; [done|]. split.
  - destruct (cadeia_caminho _ _ _ _ _ Harv Hl Hkey) as (Hhead & Hlast & _).
    destruct (rev l) as [|x [|y r]]; simpl in *; [discriminate| |lia].
    congruence.
  - by apply NoDup_intervalo.
Qed.

Lemma existe_caminho_caminho_simples_witness :
  NoDup [0; 2; 3] /\
  (forall v, v ∈ [0; 2; 3] -> indice_valido grafo4 v) /\
  (2 <= length [0; 2; 3] <= length grafo4)%nat.
Proof.
  apply (existe_caminho_caminho_simples 10 (fun _ => 1%nat) grafo4 0 3
           [0; 2; 3] 2).
  vm_compute. reflexivity.
Defined.

(** X3.  Whatever [existe_caminho] returns, the iteration count lies between
    0 and the cap [2 * len(grafo)**3]; not found comes with the empty path,
    and a found path has at most as many edges as iterations were made. *)
Theorem existe_caminho_limites (fuel : nat) (rng : fonte)
    (grafo : list (list Z)) (start target : Z)
    (found : bool) (caminho : list Z) (it : Z) :
  existe_caminho fuel rng grafo start target = Retorno (found, caminho, it) ->
  0 <= it <= 2 * Z.of_nat (length grafo) ^ 3 /\
  (found = false -> caminho = []) /\
  (found = true -> Z.of_nat (length caminho) <= it + 1).
Proof.
  destruct found.
  - intros (Hs & Ht & Hne & m & l & Hw & Hl & ->)%existe_caminho_encontrado_inv.
    destruct (random_walk_encontrado_mapa _ _ _ _ _ _ _ (proj1 Hs) Ht Hne Hw)
      as (_ & Hkey & _ & Hprof & Hit).
    split; [lia|]. split; [discriminate|]. intros _.
    specialize (Hprof target l Hkey Hl). rewrite length_rev. lia.
  - unfold existe_caminho.
    destruct ((start <? 0) || (start >=? Z.of_nat (length grafo))
              || (target <? 0) || (target >=? Z.of_nat (length grafo))).
    + intros [= <- <-]. split; [nia|]. split; [done | discriminate].
    + destruct (random_walk rng ∅ grafo start None target 0
                  (Z.of_nat (length grafo))) as [[[found m] j]| |] eqn:Ew;
        try discriminate.
      destruct found.
      * destruct (reconstruir_caminho fuel m target); discriminate.
      * intros [= <- <-]. split; [|split; [done | discriminate]].
        unfold random_walk in Ew.
        apply random_walk_loop_retorno in Ew as (s & Hs & Hp).
        apply alcancavel_contador in Hs as (Hle & _ & Hcap & _).
        apply passo_nao_encontrado in Hp as [-> _]. simpl in *.
        split; [lia|]. apply Hcap. nia.
Qed.

Lemma existe_caminho_limites_witness :
  0 <= 2 <= 2 * Z.of_nat (length grafo4) ^ 3 /\
  (true = false -> [0; 2; 3] = []) /\
  (true = true -> Z.of_nat (length [0; 2; 3]) <= 2 + 1).
Proof.
  apply (existe_caminho_limites 10 (fun _ => 1%nat) grafo4 0 3 true [0; 2; 3] 2).
  vm_compute. reflexivity.
Defined.

Lemma existe_caminho_nao_encontrado_vazio (fuel : nat) (rng : fonte)
    (grafo : list (list Z)) (start target : Z) (caminho : list Z) (it : Z) :
  existe_caminho fuel rng grafo start target = Retorno (false, caminho, it) ->
  caminho = [].
Proof.
  unfold existe_caminho.
  destruct ((start <? 0) || (start >=? Z.of_nat (length grafo))
            || (target <? 0) || (target >=? Z.of_nat (length grafo)));
    [by intros [= <- <-]|].
  destruct (random_walk rng ∅ grafo start None target 0
              (Z.of_nat (length grafo))) as [[[found m] j]| |];
    try discriminate.
  destruct found; [|by intros [= <- <-]].
  destruct (reconstruir_caminho fuel m target); discriminate.
Qed.

(** X4.  No false positive: when [existe_caminho] returns found = True the
    target can be reached from the start along edges of the graph; so for a
    target that cannot be reached every returned result is not found with the
    empty path. *)
Theorem existe_caminho_sem_falso_positivo (fuel : nat) (rng : fonte)
    (grafo : list (list Z)) (start target : Z) :
  (forall (caminho : list Z) (it : Z),
     existe_caminho fuel rng grafo start target = Retorno (true, caminho, it) ->
     alcanca grafo start target) /\
  (~ alcanca grafo start target ->
   forall (found : bool) (caminho : list Z) (it : Z),
     existe_caminho fuel rng grafo start target = Retorno (found, caminho, it) ->
     found = false /\ caminho = []).
Proof.
  assert (forall caminho it,
     existe_caminho fuel rng grafo start target = Retorno (true, caminho, it) ->
     alcanca grafo start target) as Hpos.
  { intros caminho it
      (Hs & Ht & Hne & m & l & Hw & Hl & ->)%existe_caminho_encontrado_inv.
    destruct (random_walk_encontrado_mapa _ _ _ _ _ _ _ (proj1 Hs) Ht Hne Hw)
      as (Harv & Hkey & _).
    by eapply arvore_alcanca. }
  split; [exact Hpos|].
  intros Hno found caminho it Hr. destruct found.
  - by apply Hpos in Hr.
  - split; [done|]. by eapply existe_caminho_nao_encontrado_vazio.
Qed.

Lemma existe_caminho_sem_falso_positivo_witness : alcanca grafo4 0 3.
Proof.
  apply (proj1 (existe_caminho_sem_falso_positivo 10 (fun _ => 1%nat) grafo4 0 3)
           [0; 2; 3] 2).
  vm_compute. reflexivity.
Defined.

(** X5.  A query from a vertex to itself never returns found = True: either
    the walk does not come back to the vertex and the result is not found
    with the empty path, or it does and [reconstruir_caminho] loops on the
    overwritten entry. *)
Theorem existe_caminho_mesmo_vertice_nunca_encontra (fuel : nat) (rng : fonte)
    (grafo : list (list Z)) (v : Z)
    (found : bool) (caminho : list Z) (it : Z) :
  existe_caminho fuel rng grafo v v = Retorno (found, caminho, it) ->
  found = false /\ caminho = [].
Proof.
  destruct found.
  - by intros (_ & _ & Hne & _)%existe_caminho_encontrado_inv.
  - intros Hr. split; [done|]. by eapply existe_caminho_nao_encontrado_vazio.
Qed.

Lemma existe_caminho_mesmo_vertice_nunca_encontra_witness :
  existe_caminho 10 (fun _ => 1%nat) grafo4 0 0 = Retorno (false, [], 128) /\
  false = false /\ ([] : list Z) = [].
Proof.
  assert (existe_caminho 10 (fun _ => 1%nat) grafo4 0 0
          = Retorno (false, [], 128)) as Hr by (vm_compute; reflexivity).
  split; [exact Hr|].
  exact (existe_caminho_mesmo_vertice_nunca_encontra 10 (fun _ => 1%nat) grafo4
           0 false [] 128 Hr).
Defined.

(** ** IndexError *)

(** X6.  On a square matrix nothing raises IndexError: [random_walk] started
    at a valid vertex returns a value, and [existe_caminho] never raises,
    whatever the two vertices are. *)
Theorem existe_caminho_sem_erro (grafo : list (list Z)) :
  quadrada grafo ->
  (forall (rng : fonte) (vis : gmap Z (option Z)) (atual0 : Z)
          (antecessor0 : option Z) (vertice_final i0 n : Z),
     indice_valido grafo atual0 ->
     exists r, random_walk rng vis grafo atual0 antecessor0 vertice_final i0 n
               = Retorno r) /\
  (forall (fuel : nat) (rng : fonte) (start target : Z),
     existe_caminho fuel rng grafo start target <> ErroIndice).
Proof.
  intros Hsq. split.
  - intros rng vis atual0 antecessor0 vertice_final i0 n Hv.
    by apply random_walk_retorna.
  - intros fuel rng start target. unfold existe_caminho.
    destruct ((start <? 0) || (start >=? Z.of_nat (length grafo))
              || (target <? 0) || (target >=? Z.of_nat (length grafo))) eqn:E;
      [discriminate|].
    repeat (apply orb_false_elim in E as [E ?]).
    destruct (random_walk_retorna rng ∅ grafo start None target 0
                (Z.of_nat (length grafo)) Hsq) as [[[found m] j] ->];
      [unfold indice_valido; lia|].
    destruct found; [|discriminate].
    destruct (reconstruir_caminho fuel m target); discriminate.
Qed.

Lemma existe_caminho_sem_erro_witness :
  existe_caminho 0 (fun _ => 0%nat) grafo2 0 0 <> ErroIndice.
Proof.
  apply (proj2 (existe_caminho_sem_erro grafo2
                  ltac:(unfold quadrada, grafo2; repeat constructor))).
Defined.

(** A state met by the loop is where the loop continues from. *)
Lemma random_walk_loop_alcancavel (rng : fonte) (grafo : list (list Z))
    (vertice_final n : Z) (s0 s : estado) :
  alcancavel rng grafo vertice_final n s0 s ->
  forall fuel : nat, (Z.to_nat (2 * n ^ 3 - i s0) <= fuel)%nat ->
  exists fuel' : nat,
    (Z.to_nat (2 * n ^ 3 - i s) <= fuel')%nat /\
    random_walk_loop rng grafo vertice_final n fuel s0
    = random_walk_loop rng grafo vertice_final n fuel' s.
Proof.
  induction 1 as [|s s' _ IH Hp]; intros fuel Hf; [by exists fuel|].
  destruct (IH fuel Hf) as (fuel' & Hf' & ->).
  pose proof Hp as (Hi & row & _ & _ & _ & Hs')%passo_continua.
  destruct fuel' as [|fuel']; [lia|].
  exists fuel'. split; [rewrite Hs'; simpl; lia|]. simpl. by rewrite Hp.
Qed.

Lemma random_walk_loop_erro_passo (rng : fonte) (grafo : list (list Z))
    (vertice_final n : Z) (fuel : nat) : forall s : estado,
  random_walk_loop rng grafo vertice_final n fuel s = ErroIndice ->
  exists s', alcancavel rng grafo vertice_final n s s' /\
             passo rng grafo vertice_final n s' = Falha.
Proof.
  induction fuel as [|fuel IH]; intros s; simpl;
    destruct (passo rng grafo vertice_final n s) as [s1|r1|] eqn:Ep;
    try discriminate.
  - intros _. exists s. split; [constructor | done].
  - intros (s' & Hs' & Hr)%IH. exists s'. split; [|done].
    eapply alcancavel_trans; [|exact Hs'].
    eapply alc_passo; [constructor | done].
  - intros _. exists s. split; [constructor | done].
Qed.

(** X7.  [random_walk] raises IndexError exactly when the walk, with
    iterations left, stands on a vertex outside [-len(grafo), len(grafo)):
    the only failing operation is [grafo[atual]]. *)
Theorem random_walk_erro_indice (rng : fonte) (vis : gmap Z (option Z))
    (grafo : list (list Z)) (atual0 : Z) (antecessor0 : option Z)
    (vertice_final i0 n : Z) :
  random_walk rng vis grafo atual0 antecessor0 vertice_final i0 n = ErroIndice
  <->
  exists s : estado,
    alcancavel rng grafo vertice_final n (Estado vis atual0 antecessor0 i0 0) s /\
    i s < 2 * n ^ 3 /\
    ~ (- Z.of_nat (length grafo) <= atual s < Z.of_nat (length grafo)).
Proof.
  assert (forall v : Z, py_index grafo v = None <->
            ~ (- Z.of_nat (length grafo) <= v < Z.of_nat (length grafo)))
    as Hidx.
  { intros v. unfold py_index.
    destruct (0 <=? v) eqn:E0; [|destruct (- Z.of_nat (length grafo) <=? v) eqn:E1].
    - rewrite lookup_ge_None. lia.
    - rewrite lookup_ge_None. lia.
    - split; [lia | done]. }
  unfold random_walk. split.
  - intros (s & Hs & [Hi Hnone]%passo_falha)%random_walk_loop_erro_passo.
    exists s. split; [done|]. split; [done | by apply Hidx].
  - intros (s & Hs & Hi & Hout%Hidx).
    apply random_walk_loop_alcancavel with (fuel := Z.to_nat (2 * n ^ 3 - i0))
      in Hs as (fuel' & _ & ->); [|simpl; lia].
    assert (passo rng grafo vertice_final n s = Falha) as Hp.
    { unfold passo. destruct (i s <? 2 * n ^ 3) eqn:Ei; [|lia]. by rewrite Hout. }
    destruct fuel'; simpl; by rewrite Hp.
Qed.

Lemma random_walk_erro_indice_witness :
  exists s : estado,
    alcancavel (fun _ => 0%nat) [[0; 0; 1]] 5 1 (Estado ∅ 0 None 0 0) s /\
    i s < 2 * 1 ^ 3 /\
    ~ (- Z.of_nat (length [[0; 0; 1]]) <= atual s < Z.of_nat (length [[0; 0; 1]])).
Proof.
  apply (proj1 (random_walk_erro_indice (fun _ => 0%nat) ∅ [[0; 0; 1]] 0 None 5 0 1)).
  vm_compute. reflexivity.
Defined.

(** ** Undirected graphs *)

Lemma aresta_vizinho (grafo : list (list Z)) (u v : Z) :
  0 <= u -> 0 <= v -> aresta grafo u v = true ->
  exists row, py_index grafo u = Some row /\ v ∈ vizinhos_de row.
Proof.
  intros Hu Hv. unfold aresta.
  destruct (py_index grafo u) as [row|]; [|discriminate].
  rewrite py_index_nonneg by done.
  destruct (row !! Z.to_nat v) as [c|] eqn:Ec; [|discriminate].
  intros Hc. exists row. split; [done|]. apply vizinhos_de_elem.
  split; [done|]. rewrite Ec. f_equal. lia.
Qed.

(** On an undirected graph a walk started from the empty map meets a dead
    end at its first vertex or not at all. *)
Lemma random_walk_nao_dirigido (rng : fonte) (grafo : list (list Z))
    (start target n : Z) (m : gmap Z (option Z)) (j : Z) :
  simetrica grafo -> 0 <= start -> 0 <= n ->
  random_walk rng ∅ grafo start None target 0 n = Retorno (false, m, j) ->
  j = 0 \/ j = 2 * n ^ 3.
Proof.
  intros Hsim Hs0 Hn Ew. unfold random_walk in Ew.
  apply random_walk_loop_retorno in Ew as (s & Hs & Hp).
  pose proof (alcancavel_contador _ _ _ _ _ _ Hs) as (Hle & _ & Hcap & _).
  simpl in Hle, Hcap.
  apply passo_nao_encontrado in Hp
    as [-> [[Hge _] | (_ & _ & row & Hrow & Hvazio)]].
  - right. assert (i s <= 2 * n ^ 3) by (apply Hcap; nia). lia.
  - left.
    destruct (alcancavel_chaves_validas _ _ _ _ _ _ _ _ Hs0 Hs) as [Hpos Hval].
    apply alcancavel_arvore in Hs as [-> | (_ & u & _ & Hu & Hedge)]; [done|].
    apply Hval in Hu as [Hu0 _].
    apply Hsim in Hedge; [|done|done].
    apply aresta_vizinho in Hedge as (row' & Hrow' & Hin); [|done|done].
    rewrite Hrow in Hrow'. injection Hrow' as <-.
    rewrite Hvazio in Hin. inversion Hin.
Qed.

(** X9.  On an undirected graph the walk can always step back, so the only
    dead end is an isolated start vertex: a result that is not found has
    either zero iterations or exactly [2 * len(grafo)**3]. *)
Theorem existe_caminho_nao_dirigido (fuel : nat) (rng : fonte)
    (grafo : list (list Z)) (start target : Z) (caminho : list Z) (it : Z) :
  simetrica grafo ->
  existe_caminho fuel rng grafo start target = Retorno (false, caminho, it) ->
  it = 0 \/ it = 2 * Z.of_nat (length grafo) ^ 3.
Proof.
  intros Hsim. unfold existe_caminho.
  destruct ((start <? 0) || (start >=? Z.of_nat (length grafo))
            || (target <? 0) || (target >=? Z.of_nat (length grafo))) eqn:E;
    [intros [= _ <-]; by left|].
  repeat (apply orb_false_elim in E as [E ?]).
  destruct (random_walk rng ∅ grafo start None target 0
              (Z.of_nat (length grafo))) as [[[found m] j]| |] eqn:Ew;
    try discriminate.
  destruct found; [destruct (reconstruir_caminho fuel m target); discriminate|].
  intros [= _ <-].
  refine (random_walk_nao_dirigido _ _ _ _ _ _ _ Hsim _ _ Ew); lia.
Qed.

Lemma aresta_entrada (grafo : list (list Z)) (u v : Z) :
  0 <= u -> 0 <= v ->
  aresta grafo u v =
  match entrada grafo (Z.to_nat u) (Z.to_nat v) with
  | Some conectado => conectado =? 1
  | None => false
  end.
Proof.
  intros Hu Hv. unfold aresta, entrada. rewrite py_index_nonneg by done.
  destruct (grafo !! Z.to_nat u) as [row|]; [|done].
  by rewrite py_index_nonneg.
Qed.

Lemma simetrica_grafo4 : simetrica grafo4.
Proof.
  intros u v Hu Hv. rewrite !aresta_entrada by done. unfold entrada, grafo4.
  destruct (Z.to_nat u) as [|[|[|[|a]]]];
    destruct (Z.to_nat v) as [|[|[|[|b]]]]; simpl; done.
Qed.

Lemma existe_caminho_nao_dirigido_witness :
  128 = 0 \/ 128 = 2 * Z.of_nat (length grafo4) ^ 3.
Proof.
  apply (existe_caminho_nao_dirigido 10 (fun _ => 0%nat) grafo4 0 3 [] 128).
  - exact simetrica_grafo4.
  - vm_compute. reflexivity.
Defined.

(** ** gerar_grafo_grande *)

(** An assignment inside an n-by-n matrix succeeds and changes one entry. *)
Lemma atribuir_dentro (n : nat) (grafo : list (list Z)) (i j : nat) (x : Z) :
  length grafo = n -> Forall (fun row => length row = n) grafo ->
  (i < n)%nat -> (j < n)%nat ->
  exists g', atribuir grafo i j x = Some g' /\
    length g' = n /\ Forall (fun row => length row = n) g' /\
    forall a b, entrada g' a b =
      if decide (a = i /\ b = j) then Some x else entrada grafo a b.
Proof.
  intros Hlen Hrows Hi Hj.
  destruct (lookup_lt_is_Some_2 grafo i) as [row Hrow]; [lia|].
  assert (length row = n) as Hr.
  { rewrite Forall_forall in Hrows. apply Hrows.
    apply list_elem_of_lookup. eauto. }
  exists (<[i := <[j := x]> row]> grafo). unfold atribuir. rewrite Hrow.
  destruct (decide (j < length row)%nat) as [_|]; [|lia].
  split; [done|]. split; [by rewrite length_insert|]. split.
  - apply Forall_insert; [done|]. by rewrite length_insert.
  - intros a b. unfold entrada. destruct (decide (a = i)) as [->|Hne].
    + rewrite list_lookup_insert_eq by lia. rewrite Hrow.
      destruct (decide (b = j)) as [->|Hnb].
      * rewrite list_lookup_insert_eq by lia.
        destruct (decide (i = i /\ j = j)) as [_|[]]; done.
      * rewrite list_lookup_insert_ne by done.
        destruct (decide (i = i /\ b = j)) as [[_ ?]|_]; done.
    + rewrite list_lookup_insert_ne by done.
      destruct (decide (a = i /\ b = j)) as [[? _]|_]; done.
Qed.

Lemma indice_sorteio_par (n i j : nat) :
  (i < j)%nat ->
  indice_sorteio n i j = (base_sorteio n i + (j - S i))%nat /\
  indice_sorteio n j i = (base_sorteio n i + (j - S i))%nat.
Proof.
  intros Hij. unfold indice_sorteio.
  rewrite (Nat.min_l i j), (Nat.max_r i j), (Nat.min_r j i), (Nat.max_l j i)
    by lia.
  done.
Qed.

(** One pass through the body of the inner loop. *)
Lemma gerar_passo_gerado (sorteio : fonte_aresta) (n i j : nat)
    (st : list (list Z) * nat) :
  (i < j)%nat -> (j < n)%nat -> gerado_ate sorteio n i j st ->
  exists st', gerar_passo sorteio i (Some st) j = Some st' /\
              gerado_ate sorteio n i (S j) st'.
Proof.
  intros Hij Hjn (Hlen & Hrows & Hk & Hent). destruct st as [g k]. simpl in *.
  destruct (indice_sorteio_par n i j Hij) as [Hidx1 Hidx2].
  assert (forall a b : nat, (a < n)%nat -> (b < n)%nat ->
    ~ (a = i /\ b = j) -> ~ (a = j /\ b = i) ->
    entrada g a b =
    Some (if decide (a <> b /\
                     (Nat.min a b < i \/
                      (Nat.min a b = i /\ Nat.max a b < S j)))%nat
          then valor_gerado sorteio n a b else 0)) as Houtros.
  { intros a b Ha Hb H1 H2. rewrite Hent by done.
    repeat case_decide; try done; exfalso; lia. }
  assert (forall a b : nat, (a = i /\ b = j) \/ (a = j /\ b = i) ->
    (if decide (a <> b /\
                (Nat.min a b < i \/
                 (Nat.min a b = i /\ Nat.max a b < S j)))%nat
     then valor_gerado sorteio n a b else 0)
    = if sorteio k then 1 else 0) as Hpar.
  { intros a b Hab. case_decide as Hd; [|exfalso; lia].
    unfold valor_gerado. case_decide; [lia|].
    destruct Hab as [[-> ->] | [-> ->]]; by rewrite ?Hidx1, ?Hidx2, <- Hk. }
  destruct (sorteio k) eqn:Es.
  - destruct (atribuir_dentro n g i j 1) as (g1 & Hg1 & Hl1 & Hr1 & He1);
      [done | done | lia | lia |].
    destruct (atribuir_dentro n g1 j i 1) as (g2 & Hg2 & Hl2 & Hr2 & He2);
      [done | done | lia | lia |].
    exists (g2, S k). rewrite Hg1, Hg2. split; [done|].
    split; [done|]. split; [done|]. split; [simpl; lia|]. simpl.
    intros a b Ha Hb. rewrite He2, He1.
    destruct (decide (a = j /\ b = i)) as [Hji|Hji];
      [rewrite Hpar; [done | by right]|].
    destruct (decide (a = i /\ b = j)) as [Hij'|Hij'];
      [rewrite Hpar; [done | by left]|].
    by apply Houtros.
  - exists (g, S k). split; [done|].
    split; [done|]. split; [done|]. split; [simpl; lia|]. simpl.
    intros a b Ha Hb.
    destruct (decide ((a = i /\ b = j) \/ (a = j /\ b = i))) as [Hab|Hab].
    + rewrite Hpar by done. rewrite Hent by done.
      case_decide; [exfalso; lia | done].
    + apply Houtros; try done; intros ?; apply Hab; [by left | by right].
Qed.

(** The inner loop, [for j in range(i + 1, n)]. *)
Lemma gerar_linha_gerado (sorteio : fonte_aresta) (n i : nat)
    (st : list (list Z) * nat) :
  (i < n)%nat -> gerado_ate sorteio n i (S i) st ->
  exists st', gerar_linha sorteio n (Some st) i = Some st' /\
              gerado_ate sorteio n (S i) (S (S i)) st'.
Proof.
  intros Hin Hst.
  assert (forall m : nat, (S i + m <= n)%nat ->
    exists st', foldl (gerar_passo sorteio i) (Some st) (seq (S i) m) = Some st' /\
                gerado_ate sorteio n i (S i + m) st') as Hloop.
  { induction m as [|m IH]; intros Hm.
    - exists st. split; [done|]. by rewrite Nat.add_0_r.
    - destruct IH as (st1 & Hfold & Hst1); [lia|].
      destruct (gerar_passo_gerado sorteio n i (S i + m) st1)
        as (st2 & Hpasso & Hst2); [lia | lia | done |].
      exists st2. rewrite List.seq_S, foldl_app, Hfold. simpl.
      split; [done|]. by replace (S (i + S m)) with (S (S (i + m))) by lia. }
  destruct (Hloop (n - S i)%nat) as (st' & Hfold & Hst'); [lia|].
  exists st'. split; [done|].
  destruct Hst' as (Hlen & Hrows & Hk & Hent).
  split; [done|]. split; [done|]. split.
  - rewrite Hk. simpl. lia.
  - intros a b Ha Hb. rewrite Hent by done.
    repeat case_decide; try done; exfalso; lia.
Qed.

(** The outer loop, [for i in range(n)], from the matrix of zeros. *)
Lemma gerar_linhas_gerado (sorteio : fonte_aresta) (n m : nat) :
  (m <= n)%nat ->
  exists st, foldl (gerar_linha sorteio n)
                   (Some (replicate n (replicate n 0), 0%nat)) (seq 0 m)
             = Some st /\
             gerado_ate sorteio n m (S m) st.
Proof.
  induction m as [|m IH]; intros Hm.
  - eexists. split; [done|]. split; [|split; [|split]]; simpl.
    + apply length_replicate.
    + apply Forall_replicate. apply length_replicate.
    + done.
    + intros a b Ha Hb. unfold entrada.
      rewrite lookup_replicate_2 by done. rewrite lookup_replicate_2 by done.
      case_decide; [exfalso; lia | done].
  - destruct IH as (st1 & Hfold & Hst1); [lia|].
    destruct (gerar_linha_gerado sorteio n m st1) as (st2 & Hlinha & Hst2);
      [lia | done |].
    exists st2. by rewrite List.seq_S, foldl_app, Hfold.
Qed.

(** What [gerar_grafo_grande] returns is the state after the last row. *)
Lemma gerar_grafo_grande_gerado (sorteio : fonte_aresta) (n : Z) :
  exists (grafo : list (list Z)) (k : nat),
    gerar_grafo_grande sorteio n = Some grafo /\
    gerado_ate sorteio (Z.to_nat n) (Z.to_nat n) (S (Z.to_nat n)) (grafo, k).
Proof.
  destruct (gerar_linhas_gerado sorteio (Z.to_nat n) (Z.to_nat n))
    as ([g k] & Hfold & Hst); [done|].
  exists g, k. unfold gerar_grafo_grande. by rewrite Hfold.
Qed.

(** X10.  [gerar_grafo_grande] never raises: it returns an n-by-n matrix
    ([n] taken as 0 when negative) whose diagonal is 0 and whose entry at
    [a], [b] is 1 exactly when the draw made for the pair {a, b}, the draw
    number [indice_sorteio], was below the threshold, and 0 otherwise. *)
Theorem gerar_grafo_grande_spec (sorteio : fonte_aresta) (n : Z) :
  exists grafo : list (list Z),
    gerar_grafo_grande sorteio n = Some grafo /\
    length grafo = Z.to_nat n /\
    quadrada grafo /\
    forall a b : nat, (a < Z.to_nat n)%nat -> (b < Z.to_nat n)%nat ->
      entrada grafo a b =
      Some (if decide (a = b) then 0
            else if sorteio (indice_sorteio (Z.to_nat n) a b) then 1 else 0).
Proof.
  destruct (gerar_grafo_grande_gerado sorteio n)
    as (g & k & Hg & Hlen & Hrows & _ & Hent).
  simpl in *. exists g.
  split; [done|]. split; [done|]. split.
  - unfold quadrada. by rewrite Hlen.
  - intros a b Ha Hb. rewrite Hent by done. unfold valor_gerado.
    repeat case_decide; try done; exfalso; lia.
Qed.

Lemma gerar_grafo_grande_spec_witness :
  exists grafo : list (list Z),
    gerar_grafo_grande Nat.even 4 = Some grafo /\
    length grafo = Z.to_nat 4 /\
    quadrada grafo /\
    forall a b : nat, (a < Z.to_nat 4)%nat -> (b < Z.to_nat 4)%nat ->
      entrada grafo a b =
      Some (if decide (a = b) then 0
            else if Nat.even (indice_sorteio (Z.to_nat 4) a b) then 1 else 0).
Proof. exact (gerar_grafo_grande_spec Nat.even 4). Defined.

Lemma entrada_fora (grafo : list (list Z)) (a b : nat) :
  quadrada grafo -> (length grafo <= a \/ length grafo <= b)%nat ->
  entrada grafo a b = None.
Proof.
  intros Hsq Hab. unfold entrada.
  destruct (grafo !! a) as [row|] eqn:Erow; [|done].
  apply lookup_ge_None. unfold quadrada in Hsq. rewrite Forall_forall in Hsq.
  rewrite (Hsq row) by (apply list_elem_of_lookup; eauto).
  apply lookup_lt_Some in Erow. lia.
Qed.

Lemma indice_sorteio_comm (n a b : nat) :
  indice_sorteio n a b = indice_sorteio n b a.
Proof. unfold indice_sorteio. by rewrite Nat.min_comm, Nat.max_comm. Qed.

(** X11.  A matrix returned by [gerar_grafo_grande] is an undirected simple
    graph: square, with entries 0 or 1 only, [grafo[a][b] == grafo[b][a]]
    for all positions, and no vertex adjacent to itself. *)
Theorem gerar_grafo_grande_nao_dirigido (sorteio : fonte_aresta) (n : Z)
    (grafo : list (list Z)) :
  gerar_grafo_grande sorteio n = Some grafo ->
  quadrada grafo /\
  Forall (Forall (fun conectado => conectado = 0 \/ conectado = 1)) grafo /\
  (forall a b : nat, entrada grafo a b = entrada grafo b a) /\
  simetrica grafo /\
  (forall v : Z, 0 <= v -> aresta grafo v v = false).
Proof.
  destruct (gerar_grafo_grande_gerado sorteio n)
    as (g & k & -> & Hlen & Hrows & _ & Hent0).
  intros [= <-]. simpl in *.
  assert (quadrada g) as Hsq by (unfold quadrada; by rewrite Hlen).
  assert (forall a b : nat, (a < Z.to_nat n)%nat -> (b < Z.to_nat n)%nat ->
    entrada g a b =
    Some (if decide (a = b) then 0
          else if sorteio (indice_sorteio (Z.to_nat n) a b) then 1 else 0))
    as Hent.
  { intros a b Ha Hb. rewrite Hent0 by done. unfold valor_gerado.
    repeat case_decide; try done; exfalso; lia. }
  assert (forall a b : nat, entrada g a b = entrada g b a) as Hsim.
  { intros a b.
    destruct (decide (a < Z.to_nat n /\ b < Z.to_nat n)%nat) as [[Ha Hb]|Hout].
    - rewrite !Hent by done. rewrite (indice_sorteio_comm _ b a).
      repeat case_decide; try done; exfalso; lia.
    - rewrite !entrada_fora; try done; lia. }
  split; [done|]. split; [|split; [done|split]].
  - apply Forall_lookup. intros a row Hrow.
    apply Forall_lookup. intros b c Hc.
    assert (a < Z.to_nat n)%nat as Ha by (apply lookup_lt_Some in Hrow; lia).
    assert (b < Z.to_nat n)%nat as Hb.
    { unfold quadrada in Hsq. rewrite Forall_forall in Hsq.
      apply lookup_lt_Some in Hc.
      rewrite (Hsq row) in Hc by (apply list_elem_of_lookup; eauto). lia. }
    specialize (Hent a b Ha Hb). unfold entrada in Hent.
    rewrite Hrow, Hc in Hent. injection Hent as ->.
    case_decide; [by left|]. destruct (sorteio _); [by right | by left].
  - intros u v Hu Hv. rewrite !aresta_entrada by done. by rewrite Hsim.
  - intros v Hv. rewrite aresta_entrada by done.
    destruct (decide (Z.to_nat v < Z.to_nat n)%nat) as [Hin|Hout].
    + rewrite Hent by done. by case_decide.
    + rewrite entrada_fora; [done | done | lia].
Qed.

Lemma gerar_grafo_grande_nao_dirigido_witness :
  simetrica [[0; 1; 0; 1]; [1; 0; 0; 1]; [0; 0; 0; 0]; [1; 1; 0; 0]].
Proof.
  apply (gerar_grafo_grande_nao_dirigido Nat.even 4
           [[0; 1; 0; 1]; [1; 0; 0; 1]; [0; 0; 0; 0]; [1; 1; 0; 0]]).
  vm_compute. reflexivity.
Defined.

(** ** Walks that miss the target *)

Lemma random_choice_posicao (rng : fonte) (k : nat) (seq : list Z)
    (p : nat) (x : Z) :
  seq !! p = Some x -> rng k = p -> random_choice rng k seq = Some x.
Proof.
  intros Hp Hk. unfold random_choice. destruct seq as [|y seq]; [done|].
  rewrite Hk, Nat.mod_small; [done|]. by apply lookup_lt_Some in Hp.
Qed.

Lemma passo_escolha (rng : fonte) (grafo : list (list Z)) (vertice_final n : Z)
    (s : estado) (row : list Z) (p : nat) (x : Z) :
  i s < 2 * n ^ 3 -> py_index grafo (atual s) = Some row ->
  vizinhos_de row !! p = Some x -> rng (sorteios s) = p -> x <> vertice_final ->
  passo rng grafo vertice_final n s =
  Continua (Estado (registrar (visitados s) (atual s) (antecessor s)) x
                   (Some (atual s)) (i s + 1) (S (sorteios s))).
Proof.
  intros Hi Hrow Hp Hk Hne. unfold passo.
  destruct (i s <? 2 * n ^ 3) eqn:Ei; [|lia]. rewrite Hrow.
  rewrite (random_choice_posicao _ _ _ _ _ Hp Hk).
  destruct (vizinhos_de row) as [|y l]; [done|].
  destruct (x =? vertice_final) eqn:Ex; [lia | done].
Qed.

(** X12.  Reaching the cap proves nothing about the graph: whenever the start
    vertex has a neighbour other than the target from which an edge leads
    back, some sequence of random choices keeps the walk between the two
    until the cap, and [existe_caminho] returns not found with exactly
    [2 * len(grafo)**3] iterations, whether or not the target can be
    reached. *)
Theorem existe_caminho_incompleto (grafo : list (list Z)) (start target u : Z) :
  indice_valido grafo start -> indice_valido grafo target ->
  start <> target -> 0 <= u -> u <> target ->
  aresta grafo start u = true -> aresta grafo u start = true ->
  exists rng : fonte, forall fuel : nat,
    existe_caminho fuel rng grafo start target
    = Retorno (false, [], 2 * Z.of_nat (length grafo) ^ 3).
Proof.
  intros Hs Ht Hne Hu Hut Hsu Hus.
  apply aresta_vizinho in Hsu as (row0 & Hrow0 & Hin0); [|apply Hs|done].
  apply aresta_vizinho in Hus as (row1 & Hrow1 & Hin1); [|done|apply Hs].
  apply list_elem_of_lookup in Hin0 as [p0 Hp0].
  apply list_elem_of_lookup in Hin1 as [p1 Hp1].
  exists (fun k => if Nat.even k then p0 else p1). intros fuel.
  rewrite existe_caminho_valido by done. unfold random_walk.
  set (n := Z.of_nat (length grafo)).
  set (rng := fun k => if Nat.even k then p0 else p1).
  assert (forall (f : nat) (s : estado),
    (atual s = start /\ Nat.even (sorteios s) = true) \/
    (atual s = u /\ Nat.even (sorteios s) = false) ->
    i s <= 2 * n ^ 3 -> (Z.to_nat (2 * n ^ 3 - i s) <= f)%nat ->
    exists m, random_walk_loop rng grafo target n f s
              = Retorno (false, m, 2 * n ^ 3)) as Hloop.
  { induction f as [|f IH]; intros s Hpos Hle Hf.
    - exists (visitados s). simpl. unfold passo.
      destruct (i s <? 2 * n ^ 3) eqn:Ei; [lia|]. do 3 f_equal. lia.
    - destruct (decide (i s < 2 * n ^ 3)) as [Hlt|Hge].
      + simpl. destruct Hpos as [[Ha Hev] | [Ha Hev]].
        * rewrite (passo_escolha rng grafo target n s row0 p0 u);
            [|done|by rewrite Ha|done|by unfold rng; rewrite Hev|done].
          apply IH; [right; split; [done|] | simpl; lia | simpl; lia].
          change (Nat.even (S (sorteios s)) = false).
          by rewrite Nat.even_succ, <- Nat.negb_even, Hev.
        * rewrite (passo_escolha rng grafo target n s row1 p1 start);
            [|done|by rewrite Ha|done|by unfold rng; rewrite Hev|done].
          apply IH; [left; split; [done|] | simpl; lia | simpl; lia].
          change (Nat.even (S (sorteios s)) = true).
          by rewrite Nat.even_succ, <- Nat.negb_even, Hev.
      + exists (visitados s). simpl. unfold passo.
        destruct (i s <? 2 * n ^ 3) eqn:Ei; [lia|]. do 3 f_equal. lia. }
  destruct (Hloop (Z.to_nat (2 * n ^ 3 - 0)) (Estado ∅ start None 0 0))
    as [m ->]; simpl; [by left | | lia | done].
  pose proof (cap_positivo grafo start Hs). fold n in H. lia.
Qed.

Lemma existe_caminho_incompleto_witness :
  exists rng : fonte, forall fuel : nat,
    existe_caminho fuel rng grafo4 0 3
    = Retorno (false, [], 2 * Z.of_nat (length grafo4) ^ 3).
Proof.
  apply (existe_caminho_incompleto grafo4 0 3 1).
  - unfold indice_valido. simpl. lia.
  - unfold indice_valido. simpl. lia.
  - lia.
  - lia.
  - lia.
  - reflexivity.
  - reflexivity.
Defined.

(** ** Queries on generated graphs *)

(** X13.  The script's use of the two functions together: on a matrix made
    by [gerar_grafo_grande], a query between two distinct valid vertices
    raises nothing and returns, the same result for every larger budget; the
    result is found, or not found with the empty path and either zero
    iterations or exactly [2 * len(grafo)**3]. *)
Theorem existe_caminho_em_grafo_gerado (sorteio : fonte_aresta) (n : Z)
    (grafo : list (list Z)) (rng : fonte) (start target : Z) :
  gerar_grafo_grande sorteio n = Some grafo ->
  0 <= start < n -> 0 <= target < n -> start <> target ->
  exists (fuel : nat) (found : bool) (caminho : list Z) (it : Z),
    (forall fuel' : nat, (fuel <= fuel')%nat ->
       existe_caminho fuel' rng grafo start target
       = Retorno (found, caminho, it)) /\
    (found = false -> caminho = [] /\ (it = 0 \/ it = 2 * n ^ 3)).
Proof.
  intros Hg Hs Ht Hne.
  destruct (gerar_grafo_grande_gerado sorteio n)
    as (g & k & Hg' & Hlen & Hrows & _ & Hent).
  rewrite Hg in Hg'. injection Hg' as <-. simpl in *.
  assert (Z.of_nat (length grafo) = n) as Hn by lia.
  assert (quadrada grafo) as Hsq by (unfold quadrada; by rewrite Hlen).
  assert (indice_valido grafo start) as Hvs by (unfold indice_valido; lia).
  assert (indice_valido grafo target) as Hvt by (unfold indice_valido; lia).
  assert (simetrica grafo) as Hsim.
  { intros u v Hu Hv. rewrite !aresta_entrada by done.
    destruct (decide (Z.to_nat u < Z.to_nat n /\ Z.to_nat v < Z.to_nat n)%nat)
      as [[Ha Hb]|Hout].
    - rewrite !Hent by done. unfold valor_gerado.
      rewrite (indice_sorteio_comm _ (Z.to_nat v) (Z.to_nat u)).
      repeat case_decide; try done; exfalso; lia.
    - rewrite !entrada_fora; try done; lia. }
  destruct (random_walk_retorna rng ∅ grafo start None target 0
              (Z.of_nat (length grafo)) Hsq Hvs) as [[[found m] j] Hr].
  destruct found.
  - pose proof Hr as Hw. unfold random_walk in Hw.
    apply random_walk_loop_arvore in Hw as [Harv Hkey];
      [|done|by eapply cap_positivo].
    destruct (arv_cadeia _ _ _ Harv target (Hkey eq_refl)) as (l & Hl & _).
    exists (length l), true, (rev l), j. split; [|discriminate].
    intros fuel' Hf. rewrite existe_caminho_valido, Hr by done.
    by rewrite (reconstruir_caminho_cadeia _ _ _ _ Hl Hf).
  - exists 0%nat, false, [], j. split.
    + intros fuel' _. by rewrite existe_caminho_valido, Hr.
    + intros _. split; [done|]. rewrite <- Hn.
      refine (random_walk_nao_dirigido _ _ _ _ _ _ _ Hsim _ _ Hr); lia.
Qed.

Lemma existe_caminho_em_grafo_gerado_witness :
  exists (fuel : nat) (found : bool) (caminho : list Z) (it : Z),
    (forall fuel' : nat, (fuel <= fuel')%nat ->
       existe_caminho fuel' (fun _ => 0%nat)
         [[0; 1; 0; 1]; [1; 0; 0; 1]; [0; 0; 0; 0]; [1; 1; 0; 0]] 0 2
       = Retorno (found, caminho, it)) /\
    (found = false -> caminho = [] /\ (it = 0 \/ it = 2 * 4 ^ 3)).
Proof.
  apply (existe_caminho_em_grafo_gerado Nat.even 4
           [[0; 1; 0; 1]; [1; 0; 0; 1]; [0; 0; 0; 0]; [1; 1; 0; 0]]
           (fun _ => 0%nat) 0 2).
  - vm_compute. reflexivity.
  - lia.
  - lia.
  - lia.
Defined.
